(** * interwebz/api.py: the command-sanitization pipeline

    A shallow embedding of [src/interwebz/api.py] and of the parts of the
    Python runtime it calls ([str] methods, [int], [chr], slicing and the
    standard library's [shlex] lexer), followed by the properties of the
    pipeline.

    Python strings are modelled as lists of characters whose code points lie
    in [0, 255]: [len] is the length of the list, and every operation of the
    pipeline maps such strings to such strings (the only character the code
    creates from a number is [chr] of a two-character hexadecimal literal).
    The tables for [str.isprintable], [str.lower] and the white space
    accepted by [int] are the Unicode ones restricted to that range. *)

From Stdlib Require Import ZArith Ascii String DecimalString Lia.
From stdpp Require Import base option list.

Local Open Scope Z_scope.
Local Open Scope list_scope.
#[local] Set Warnings "-register-all".

Abbreviation str := (list ascii) (only parsing).

(** A string literal of the source. *)
Definition lit (s : string) : str := list_ascii_of_string s.

(** ** The Python runtime *)

Module Py.

(** The exceptions the pipeline can meet.  [OtherError] stands for any
    exception of the store client that is neither of the first two. *)
Inductive exn :=
| ValueError (msg : str)
| IndexError (msg : str)
| OtherError (msg : str).

(** [str(e)] *)
Definition exn_str (e : exn) : str :=
  match e with ValueError m | IndexError m | OtherError m => m end.

(** The outcome of an expression that may raise. *)
Inductive result (A : Type) :=
| Ok (a : A)
| Raise (e : exn).
Arguments Ok {A} a.
Arguments Raise {A} e.

Definition bind {A B} (r : result A) (k : A -> result B) : result B :=
  match r with Ok a => k a | Raise e => Raise e end.

(** [try: r  except ValueError: h] *)
Definition try_except_ValueError {A} (r : result A) (h : str -> result A) : result A :=
  match r with
  | Raise (ValueError m) => h m
  | _ => r
  end.

Definition dquote : ascii := "034"%char.
Definition squote : ascii := "'"%char.
Definition backslash : ascii := "\"%char.

(** [ord(c)] *)
Definition ord (c : ascii) : Z := Z.of_N (N_of_ascii c).

(** [chr(n)]: a [ValueError] outside [range(0x110000)].  The pipeline calls
    it on the value of a two-character literal only, which is below 256
    ([int16_two_chars_bound]); the model has no character above that. *)
Definition chr (n : Z) : result ascii :=
  if (0 <=? n) && (n <? 256) then Ok (ascii_of_N (Z.to_N n))
  else Raise (ValueError (lit "chr() arg not in range(0x110000)")).

(** [c in s] for a single character [c] *)
Definition char_in (c : ascii) (s : str) : bool := existsb (Ascii.eqb c) s.

(** [a == b] on strings *)
Fixpoint str_eqb (a b : str) : bool :=
  match a, b with
  | [], [] => true
  | x :: a', y :: b' => Ascii.eqb x y && str_eqb a' b'
  | _, _ => false
  end.

(** [c.isprintable()]: false for the categories Other and Separator, the
    ASCII space apart; below 256 these are the C0 and C1 controls, DEL,
    the no-break space and the soft hyphen. *)
Definition isprintable (c : ascii) : bool :=
  let n := ord c in
  ((32 <=? n) && (n <=? 126)) || ((161 <=? n) && (n <=? 255) && negb (n =? 173)).

(** [c.lower()] for one character: A-Z and the Latin-1 capitals
    (0xC0-0xDE, the multiplication sign 0xD7 apart) move up by 32. *)
Definition lower_char (c : ascii) : ascii :=
  let n := ord c in
  if ((65 <=? n) && (n <=? 90)) || ((192 <=? n) && (n <=? 222) && negb (n =? 215))
  then ascii_of_N (Z.to_N (n + 32)) else c.

(** [s.lower()] *)
Definition lower (s : str) : str := map lower_char s.

(** [s.startswith(c)] for a one-character prefix *)
Definition startswith (s : str) (c : ascii) : bool :=
  match s with x :: _ => Ascii.eqb x c | [] => false end.

(** A slice bound [i] of a sequence of length [n]: negative bounds count
    from the end, and every bound is clamped to [0, n]. *)
Definition clamp (n : nat) (i : Z) : nat :=
  let j := if i <? 0 then i + Z.of_nat n else i in
  Z.to_nat (Z.max 0 (Z.min j (Z.of_nat n))).

(** [s[lo:hi]] *)
Definition slice {A} (lo hi : Z) (s : list A) : list A :=
  let a := clamp (length s) lo in
  let b := clamp (length s) hi in
  take (b - a) (drop a s).

(** [s[:hi]] *)
Definition slice_to {A} (hi : Z) (s : list A) : list A := slice 0 hi s.

(** [s.replace(old, new)] for a two-character [old] and a one-character
    [new]: occurrences are replaced left to right without overlap. *)
Fixpoint replace2 (o1 o2 new : ascii) (s : str) : str :=
  match s with
  | [] => []
  | c :: s' =>
      match s' with
      | d :: s'' =>
          if Ascii.eqb c o1 && Ascii.eqb d o2 then new :: replace2 o1 o2 new s''
          else c :: replace2 o1 o2 new s'
      | [] => [c]
      end
  end.

(** [str(n)] for an integer *)
Definition str_of_int (n : Z) : str := lit (NilZero.string_of_int (Z.to_int n)).

(** One lower-case hexadecimal digit. *)
Definition hex_digit (n : Z) : ascii :=
  if n <? 10 then ascii_of_N (Z.to_N (48 + n)) else ascii_of_N (Z.to_N (87 + n)).

(** [f'{n:02x}'] for [0 <= n < 256]: two lower-case hexadecimal digits. *)
Definition format_02x (n : Z) : str := [hex_digit (n / 16); hex_digit (n mod 16)].

(** *** [int(s)] and [int(s, 16)] *)

(** The white space [int] strips: the ASCII white space of C, and the
    no-break space and NEL, which it first turns into spaces. *)
Definition int_space (c : ascii) : bool :=
  let n := ord c in
  ((9 <=? n) && (n <=? 13)) || (n =? 32) || (n =? 133) || (n =? 160).

(** The value of a digit in bases up to 36. *)
Definition digit_value (c : ascii) : option Z :=
  let n := ord c in
  if (48 <=? n) && (n <=? 57) then Some (n - 48)
  else if (97 <=? n) && (n <=? 122) then Some (n - 87)
  else if (65 <=? n) && (n <=? 90) then Some (n - 55)
  else None.

(** Digits of [base], single underscores allowed between two digits.
    [prev_us] tells that the previous character was an underscore. *)
Fixpoint digits (base acc : Z) (prev_us : bool) (s : str) : option Z :=
  match s with
  | [] => if prev_us then None else Some acc
  | c :: s' =>
      if Ascii.eqb c "_" then
        if prev_us then None else digits base acc true s'
      else
        match digit_value c with
        | Some d => if d <? base then digits base (acc * base + d) false s' else None
        | None => None
        end
  end.

Fixpoint lstrip (s : str) : str :=
  match s with
  | c :: s' => if int_space c then lstrip s' else s
  | [] => []
  end.

Definition rstrip (s : str) : str := rev (lstrip (rev s)).

(** [int(s, base)] for [base] 10 or 16; [None] is a [ValueError].
    White space around the literal is dropped, then an optional sign, then
    for base 16 an optional [0x] prefix and one underscore after it; what
    is left must be a non-empty run of digits that does not start with an
    underscore.  (CPython also refuses decimal literals of more than 4300
    digits by default; arguments that reach the pipeline's calls have at
    most 256 characters.) *)
Definition parse_int (base : Z) (s : str) : option Z :=
  let s1 := lstrip s in
  let '(neg, s2) :=
    match s1 with
    | c :: r => if Ascii.eqb c "+" then (false, r)
                else if Ascii.eqb c "-" then (true, r) else (false, s1)
    | [] => (false, s1)
    end in
  let s3 :=
    match s2 with
    | z :: x :: r =>
        if (base =? 16) && Ascii.eqb z "0" && (Ascii.eqb x "x" || Ascii.eqb x "X")
        then match r with u :: r' => if Ascii.eqb u "_" then r' else r | [] => r end
        else s2
    | _ => s2
    end in
  match rstrip s3 with
  | [] => None
  | (c :: _) as s4 =>
      if Ascii.eqb c "_" then None
      else match digits base 0 false s4 with
           | Some n => Some (if neg : bool then - n else n)
           | None => None
           end
  end.

Definition int (base : Z) (s : str) : result Z :=
  match parse_int base s with
  | Some n => Ok n
  | None => Raise (ValueError (lit "invalid literal for int()"))
  end.

End Py.

Import Py.

(** ** The standard library's [shlex] lexer

    [shlex.read_token] and [shlex.get_token] as CPython's [Lib/shlex.py] has
    them, for a lexer over a string with no punctuation characters, no source
    inclusion and no file stack (the only kind [execute_commands] builds). *)

Module Shlex.

(** The attributes a caller may set. *)
Record config := {
  posix : bool;
  whitespace_split : bool;
  commenters : str;
}.

Definition wordchars_ascii : str :=
  lit "abcdfeghijklmnopqrstuvwxyzABCDEFGHIJKLMNOPQRSTUVWXYZ0123456789_".

(** The letters [__init__] adds to [wordchars] in POSIX mode: the Latin-1
    letters 0xDF-0xFF and 0xC0-0xDE, the signs at 0xF7 and 0xD7 apart. *)
Definition wordchars_latin1 (c : ascii) : bool :=
  let n := ord c in
  (192 <=? n) && (n <=? 255) && negb (n =? 215) && negb (n =? 247).

Definition in_wordchars (cfg : config) (c : ascii) : bool :=
  char_in c wordchars_ascii || (posix cfg && wordchars_latin1 c).

Definition whitespace : str := [" "%char; "009"%char; "013"%char; "010"%char].
Definition quotes : str := [squote; dquote].
Definition escape : str := [backslash].
Definition escapedquotes : str := [dquote].

(** The value of [self.state], [None] apart: [' '], ['a'], a quote
    character or an escape character. *)
Inductive lstate :=
| in_space
| in_word
| in_quote (q : ascii)
| in_escape (e : ascii).

(** The lexer object without its input stream: [self.state] ([None] past
    the end of the input), [self.token] and the [self.pushback] deque. *)
Record lexer := {
  state : option lstate;
  token : str;
  pushback : list str;
}.

Definition set_state (s : option lstate) (lx : lexer) : lexer :=
  {| state := s; token := token lx; pushback := pushback lx |}.
Definition set_token (t : str) (lx : lexer) : lexer :=
  {| state := state lx; token := t; pushback := pushback lx |}.
Definition push_left (t : str) (lx : lexer) : lexer :=
  {| state := state lx; token := token lx; pushback := t :: pushback lx |}.

(** The locals of [read_token]. *)
Record locals := {
  quoted : bool;
  escapedstate : lstate;
}.

(** What one turn of the [while True] loop of [read_token] does after
    reading [nextchar]. *)
Inductive turn :=
| Continue (lx : lexer) (loc : locals)
| Break (lx : lexer) (loc : locals)
| Raising (e : exn).

(** [if self.token or (self.posix and quoted): break  else: continue] *)
Definition emit (cfg : config) (lx : lexer) (loc : locals) : turn :=
  match token lx with
  | _ :: _ => Break lx loc
  | [] => if posix cfg && quoted loc then Break lx loc else Continue lx loc
  end.

(** A turn of the loop at the end of the input ([nextchar == '']). *)
Definition turn_eof (lx : lexer) (loc : locals) : turn :=
  match state lx with
  | None => Break (set_token [] lx) loc
  | Some in_space => Break (set_state None lx) loc
  | Some (in_quote _) => Raising (ValueError (lit "No closing quotation"))
  | Some (in_escape _) => Raising (ValueError (lit "No escaped character"))
  | Some in_word => Break (set_state None lx) loc
  end.

(** A turn of the loop on the character [c].  The first component tells
    whether the turn called [self.instream.readline()]. *)
Definition turn_char (cfg : config) (c : ascii) (lx : lexer) (loc : locals)
  : bool * turn :=
  match state lx with
  | None => (false, Break (set_token [] lx) loc)
  | Some in_space =>
      if char_in c whitespace then (false, emit cfg lx loc)
      else if char_in c (commenters cfg) then (true, Continue lx loc)
      else if posix cfg && char_in c escape then
        (false, Continue (set_state (Some (in_escape c)) lx)
                         {| quoted := quoted loc; escapedstate := in_word |})
      else if in_wordchars cfg c then
        (false, Continue (set_state (Some in_word) (set_token [c] lx)) loc)
      else if char_in c quotes then
        let lx1 := if posix cfg then lx else set_token [c] lx in
        (false, Continue (set_state (Some (in_quote c)) lx1) loc)
      else if whitespace_split cfg then
        (false, Continue (set_state (Some in_word) (set_token [c] lx)) loc)
      else (false, emit cfg (set_token [c] lx) loc)
  | Some (in_quote q) =>
      let loc := {| quoted := true; escapedstate := escapedstate loc |} in
      if Ascii.eqb c q then
        if posix cfg then (false, Continue (set_state (Some in_word) lx) loc)
        else (false, Break (set_state (Some in_space)
                              (set_token (token lx ++ [c]) lx)) loc)
      else if posix cfg && char_in c escape && char_in q escapedquotes then
        (false, Continue (set_state (Some (in_escape c)) lx)
                         {| quoted := true; escapedstate := in_quote q |})
      else (false, Continue (set_token (token lx ++ [c]) lx) loc)
  | Some (in_escape e) =>
      let kept :=
        match escapedstate loc with
        | in_quote q => if negb (Ascii.eqb c e) && negb (Ascii.eqb c q)
                        then [e] else []
        | _ => []
        end in
      (false, Continue (set_state (Some (escapedstate loc))
                          (set_token (token lx ++ kept ++ [c]) lx)) loc)
  | Some in_word =>
      if char_in c whitespace then
        (false, emit cfg (set_state (Some in_space) lx) loc)
      else if char_in c (commenters cfg) then
        if posix cfg then (true, emit cfg (set_state (Some in_space) lx) loc)
        else (true, Continue lx loc)
      else if posix cfg && char_in c quotes then
        (false, Continue (set_state (Some (in_quote c)) lx) loc)
      else if posix cfg && char_in c escape then
        (false, Continue (set_state (Some (in_escape c)) lx)
                         {| quoted := quoted loc; escapedstate := in_word |})
      else if in_wordchars cfg c || char_in c quotes || whitespace_split cfg then
        (false, Continue (set_token (token lx ++ [c]) lx) loc)
      else
        (false, emit cfg (set_state (Some in_space) (push_left [c] lx)) loc)
  end.

(** [self.instream.readline()]: what is left of the stream after it. *)
Fixpoint readline (l : str) : str :=
  match l with
  | [] => []
  | d :: l' => if Ascii.eqb d "010" then l' else readline l'
  end.

(** The loop of [read_token] once the stream is exhausted: every state
    leaves the loop there. *)
Definition read_loop_eof (lx : lexer) (loc : locals) : result (lexer * locals * str) :=
  match turn_eof lx loc with
  | Break lx' loc' | Continue lx' loc' => Ok (lx', loc', [])
  | Raising e => Raise e
  end.

(** The [while True] loop of [read_token] over the rest [input] of the
    stream: the lexer and the locals at the [break], and what is left of
    the stream.  A turn that calls [self.instream.readline()] goes on
    after the first newline of the stream ([drop_line]). *)
Fixpoint read_loop (cfg : config) (input : str) (lx : lexer) (loc : locals)
  : result (lexer * locals * str) :=
  match input with
  | [] => read_loop_eof lx loc
  | c :: rest =>
      match turn_char cfg c lx loc with
      | (false, Continue lx' loc') => read_loop cfg rest lx' loc'
      | (false, Break lx' loc') => Ok (lx', loc', rest)
      | (true, t) =>
          (fix drop_line (l : str) : result (lexer * locals * str) :=
             match l with
             | [] =>
                 match t with
                 | Continue lx' loc' => read_loop_eof lx' loc'
                 | Break lx' loc' => Ok (lx', loc', [])
                 | Raising e => Raise e
                 end
             | d :: l' =>
                 if Ascii.eqb d "010" then
                   match t with
                   | Continue lx' loc' => read_loop cfg l' lx' loc'
                   | Break lx' loc' => Ok (lx', loc', l')
                   | Raising e => Raise e
                   end
                 else drop_line l'
             end) rest
      | (_, Raising e) => Raise e
      end
  end.

(** [read_token]: the raw token ([None] is Python's [None]), the lexer
    afterwards and the rest of the stream. *)
Definition read_token (cfg : config) (lx : lexer) (input : str)
  : result (option str * lexer * str) :=
  bind (read_loop cfg input lx {| quoted := false; escapedstate := in_space |})
    (fun '(lx', loc', rest) =>
       let result := token lx' in
       let lx'' := set_token [] lx' in
       match result with
       | [] => if posix cfg && negb (quoted loc') then Ok (None, lx'', rest)
               else Ok (Some [], lx'', rest)
       | _ => Ok (Some result, lx'', rest)
       end).

(** [get_token]: a pushed-back token first, a fresh one otherwise; at the
    end of the input the fresh token is [self.eof] ([None] in POSIX mode,
    [''] otherwise), which is returned as it is. *)
Definition get_token (cfg : config) (lx : lexer) (input : str)
  : result (option str * lexer * str) :=
  match pushback lx with
  | tok :: pb => Ok (Some tok, {| state := state lx; token := token lx; pushback := pb |}, input)
  | [] => read_token cfg lx input
  end.

(** [self.eof] *)
Definition eof (cfg : config) : option str :=
  if posix cfg then None else Some [].

(** [list(lexer)], through [__next__]: tokens are taken until one equals
    [self.eof].  [fuel] bounds the number of calls; [None] stands for a run
    that needs more. *)
Fixpoint to_list (fuel : nat) (cfg : config) (lx : lexer) (input : str)
  : option (result (list (option str))) :=
  match fuel with
  | O => None
  | S fuel' =>
      match get_token cfg lx input with
      | Raise e => Some (Raise e)
      | Ok (tok, lx', rest) =>
          let at_eof :=
            match tok, eof cfg with
            | None, None => true
            | Some t, Some e => str_eqb t e
            | _, _ => false
            end in
          if at_eof then Some (Ok [])
          else match to_list fuel' cfg lx' rest with
               | Some (Ok toks) => Some (Ok (tok :: toks))
               | other => other
               end
      end
  end.

(** [shlex(instream, infile, posix)] *)
Definition new : lexer := {| state := Some in_space; token := []; pushback := [] |}.

Definition default_config (posix : bool) : config :=
  {| posix := posix; whitespace_split := false; commenters := ["#"%char] |}.

End Shlex.

(** ** [interwebz/api.py] *)

Definition max_batch_size : Z := 20.
Definition max_arguments : Z := 25.
Definition max_argument_size : Z := 256.

(** [escapes = {'n': '\n', 'r': '\r', 't': '\t', 'b': '\b', 'a': '\a'}] *)
Definition escapes : list (ascii * ascii) :=
  [("n"%char, "010"%char); ("r"%char, "013"%char); ("t"%char, "009"%char);
   ("b"%char, "008"%char); ("a"%char, "007"%char)].

(** [unescapes = {v: k for k, v in escapes.items()}] *)
Definition unescapes : list (ascii * ascii) := map (fun '(k, v) => (v, k)) escapes.

(** [d.get(key, default)] on a table of characters *)
Fixpoint dict_get (d : list (ascii * ascii)) (key default : ascii) : ascii :=
  match d with
  | (k, v) :: d' => if Ascii.eqb k key then v else dict_get d' key default
  | [] => default
  end.

(** The lexer [lex] of lines 122-124: POSIX mode, [whitespace_split = True],
    [commenters = '']. *)
Definition lex_config : Shlex.config :=
  {| Shlex.posix := true; Shlex.whitespace_split := true; Shlex.commenters := [] |}.

(** [iter(lexer.get_token, '')] gathered by [list]: tokens are taken until one
    equals [''].  Python's [None] (the end of input of a POSIX lexer) is not
    the sentinel and is gathered like any token.  [fuel] bounds the number of
    calls; [None] stands for a run that needs more. *)
Fixpoint iter_get_token (fuel : nat) (cfg : Shlex.config) (lx : Shlex.lexer) (input : str)
  : option (result (list (option str))) :=
  match fuel with
  | O => None
  | S fuel' =>
      match Shlex.get_token cfg lx input with
      | Raise e => Some (Raise e)
      | Ok (Some [], _, _) => Some (Ok [])
      | Ok (tok, lx', rest) =>
          match iter_get_token fuel' cfg lx' rest with
          | Some (Ok toks) => Some (Ok (tok :: toks))
          | other => other
          end
      end
  end.

(** [list(iter(shlex(command, True).get_token, ''))]: the second positional
    parameter of [shlex] is [infile], so this lexer is not in POSIX mode and
    keeps the defaults ([whitespace_split = False], [commenters = '#']); the
    object [lex] configured on the lines before is not the one iterated.
    [None] stands for a run that does not return; there is none
    ([tokens_returns]). *)
Definition tokens (command : str) : option (result (list (option str))) :=
  iter_get_token (S (2 * length command)) (Shlex.default_config false) Shlex.new command.

Notation "x <- e ;; k" := (bind e (fun x => k))
  (at level 100, e at next level, right associativity, only parsing).

(** [l[i]]: an [IndexError] out of range. *)
Definition getitem {A} (l : list A) (i : nat) : result A :=
  match l !! i with
  | Some a => Ok a
  | None => Raise (IndexError (lit "list index out of range"))
  end.

(** [l[i] = a]: an [IndexError] out of range. *)
Definition setitem {A} (l : list A) (i : nat) (a : A) : result (list A) :=
  match l !! i with
  | Some _ => Ok (<[i := a]> l)
  | None => Raise (IndexError (lit "list assignment index out of range"))
  end.

(** The values a reply carries: what the store client returns, or a message.
    [VOther] stands for an object of any type other than [str], [list] and
    [dict] (a number, [None], bytes, a tuple, ...). *)
Inductive value :=
| VStr (s : str)
| VList (l : list value)
| VDict (d : list (str * value))
| VOther (tag : Z).

(** The dict [{'value': value, 'error': error}]. *)
Record Reply := {
  reply_value : value;
  reply_error : bool;
}.

Definition reply (v : value) (error : bool) : Reply :=
  {| reply_value := v; reply_error := error |}.

Definition deny (message : str) : Reply :=
  reply (VStr (message ++ lit " allowed on the interwebz")) true.

Definition signature : str := lit "... (full value snipped by the interwebz)".

Definition snip (v : str) (init : Z) : str :=
  slice_to (max_argument_size - init - Z.of_nat (length signature)) v ++ signature.

(** The [while i < len(value)] loop of [unescape_argument]: [rest] is
    [value[i:]] and [result] the list built so far.  [None] is the early
    [return value]. *)
Fixpoint unescape_loop (rest : str) (result : str) : option str :=
  match rest with
  | [] => Some result
  | c :: tl =>
      if Ascii.eqb c backslash then
        match tl with
        | [] => None
        | c1 :: tl1 =>
            let plain := unescape_loop tl1 (result ++ [dict_get escapes c1 c1]) in
            if Ascii.eqb c1 "x" then
              match tl1 with
              | h1 :: h2 :: tl3 =>
                  match hex_val <- int 16 [h1; h2] ;; chr hex_val with
                  | Ok ch => unescape_loop tl3 (result ++ [ch])
                  | Raise _ => unescape_loop tl (result ++ [c])
                  end
              | _ => plain
              end
            else plain
        end
      else unescape_loop tl (result ++ [c])
  end.

Definition unescape_argument (argument : str) : str :=
  if (Z.of_nat (length argument) <? 2)
     || negb (startswith argument dquote || startswith argument squote)
  then argument
  else
    let value := slice 1 (-1) argument in
    if startswith argument dquote then
      match unescape_loop value [] with
      | Some result => result
      | None => value
      end
    else replace2 backslash squote squote value.

(** The [for c in resp] loop of [escape_strings]: what one character adds to
    [escaped]. *)
Definition escape_char (c : ascii) : str :=
  if Ascii.eqb c backslash then [backslash; backslash]
  else if Ascii.eqb c dquote then [backslash; dquote]
  else if negb (isprintable c) then backslash :: "x"%char :: format_02x (ord c)
  else [dict_get unescapes c c].

Definition escape_str (resp : str) : str :=
  let escaped := fold_left (fun escaped c => escaped ++ escape_char c) resp [] in
  if negb (str_eqb escaped resp) then dquote :: escaped ++ [dquote] else escaped.

(** Python's limit on the depth of recursion is not modelled. *)
Fixpoint escape_strings (resp : value) : value :=
  match resp with
  | VStr s => VStr (escape_str s)
  | VList l => VList (map escape_strings l)
  | VDict d => VDict (map (fun kv => match kv with (k, v) => (k, escape_strings v) end) d)
  | VOther _ => resp
  end.

(** [sanitize_exceptions] mutates [argv] in place: the model returns the list
    after the call next to the returned value ([None] is Python's [None]). *)
Definition sanitize_exceptions (argv : list str) : result (list str * option str) :=
  argv0 <- getitem argv 0 ;;
  let cmd_name := lower argv0 in
  let argc := Z.of_nat (length argv) in
  if str_eqb cmd_name (lit "setbit") && (argc =? 4) then
    try_except_ValueError
      (argv2 <- getitem argv 2 ;;
       offset <- int 10 argv2 ;;
       let max_offset := max_argument_size * 8 in
       if offset >? max_offset then
         Ok (argv, Some (lit "offset too big - only up to " ++ str_of_int max_offset
                         ++ lit " bits allowed"))
       else Ok (argv, None))
      (fun _ => Ok (argv, None))
  else if str_eqb cmd_name (lit "setrange") && (argc =? 4) then
    try_except_ValueError
      (argv2 <- getitem argv 2 ;;
       offset <- int 10 argv2 ;;
       if offset >? max_argument_size then
         Ok (argv, Some (lit "offset too big - only up to " ++ str_of_int max_argument_size
                         ++ lit " bytes allowed"))
       else
         argv3 <- getitem argv 3 ;;
         argv' <- setitem argv 3 (slice_to (max_argument_size - offset + 1) argv3) ;;
         Ok (argv', None))
      (fun _ => argv' <- setitem argv 3 [] ;; Ok (argv', None))
  else if existsb (str_eqb cmd_name) [lit "quit"; lit "hello"; lit "reset"; lit "auth"] then
    Ok (argv, Some (lit "the '" ++ argv0 ++ lit "' command is not"))
  else Ok (argv, None).

(** What a request may carry as its commands. *)
Inductive pyobj :=
| PyStr (s : str)
| PyList (l : list pyobj)
| PyOther.

(** What [verify_commands] returns when it does not return [None]: the
    tuple of a message and a status, or a denial. *)
Inductive rejection :=
| BadRequest (msg : str) (status : Z)
| Denied (r : Reply).

Definition verify_commands (commands : pyobj) : option rejection :=
  match commands with
  | PyList l =>
      if Z.of_nat (length l) >? max_batch_size then
        Some (Denied (deny (lit "batch is too large. Only up to "
                            ++ str_of_int max_batch_size ++ lit " commands")))
      else None
  | _ => Some (BadRequest (lit "It posts commands as a list") 400)
  end.



(** The characters of the model. *)
Definition all_chars : list ascii := map ascii_of_nat (seq 0 256).

(** The loop of [execute_commands] over [argv] (lines 138-148): every
    argument that is a string is decoded and, when longer than
    [max_argument_size], snipped; [None] is the loop left with [stronly]
    false, at an argument that is not a string. *)
Definition sanitize_argument (a : str) : str :=
  let a' := unescape_argument a in
  if Z.of_nat (length a') >? max_argument_size then snip a' 0 else a'.

Fixpoint sanitize_arguments (argv : list (option str)) : option (list str) :=
  match argv with
  | [] => Some []
  | Some a :: argv' =>
      match sanitize_arguments argv' with
      | Some r => Some (sanitize_argument a :: r)
      | None => None
      end
  | None :: _ => None
  end.

(** Line 157: the commands whose response is not escaped. *)
Definition is_info (argv : list str) : bool :=
  match argv with
  | a0 :: rest =>
      str_eqb (lower a0) (lit "info")
      || ((Z.of_nat (length argv) >? 1) && str_eqb (lower a0) (lit "client")
          && match rest with a1 :: _ => str_eqb (lower a1) (lit "info") | [] => false end)
  | [] => false
  end.

(** The diagnostic commands: [INFO] with any arguments, and [CLIENT] with
    [INFO] as its second argument, whatever follows. *)
Definition info_command (argv : list str) : Prop :=
  exists a0, argv !! 0%nat = Some a0
    /\ (lower a0 = lit "info"
        \/ (lower a0 = lit "client"
            /\ exists a1, argv !! 1%nat = Some a1 /\ lower a1 = lit "info")).

(** The commands that tokenize to at least one argument or fail to parse. *)
Definition yields_reply (command : str) : bool :=
  match tokens command with
  | Some (Ok []) => false
  | _ => true
  end.

Section Orchestrator.

(** The store behind the client, and the page session. *)
Context {Store Session : Type}.

(** [client.execute_namespaced(session, argv)]: a response or an exception,
    and the store afterwards.  The client is taken not to mutate [argv], and
    to raise nothing outside [Exception] (no [KeyboardInterrupt]). *)
Variable execute_namespaced :
  Session -> list str -> Store -> result value * Store.

(** The store, and the argument vectors dispatched to the client so far. *)
Record world := {
  store : Store;
  calls : list (list str);
}.

Definition dispatch (session : Session) (argv : list str) (w : world)
  : result value * world :=
  let '(r, s') := execute_namespaced session argv (store w) in
  (r, {| store := s'; calls := calls w ++ [argv] |}).

(** One turn of the [for command in commands] loop: [rep] afterwards.
    [None] stands for a turn that does not return, [Raise] for an exception
    that leaves [execute_commands]. *)
Definition execute_command (session : Session) (command : str)
    (rep : list Reply) (w : world) : option (result (list Reply)) * world :=
  match tokens command with
  | None => (None, w)
  | Some (Raise (ValueError e)) => (Some (Ok (rep ++ [reply (VStr e) true])), w)
  | Some (Raise e) => (Some (Raise e), w)
  | Some (Ok argv) =>
      let argc := Z.of_nat (length argv) in
      if argc =? 0 then (Some (Ok rep), w)
      else if argc >? max_arguments then
        (Some (Ok (rep ++ [deny (lit "too many arguments - only up to "
                                 ++ str_of_int max_arguments)])), w)
      else
        match sanitize_arguments argv with
        | None => (Some (Ok (rep ++ [deny (lit "only string arguments are allowed")])), w)
        | Some argv =>
            match sanitize_exceptions argv with
            | Raise e => (Some (Raise e), w)
            | Ok (argv, Some error) => (Some (Ok (rep ++ [deny error])), w)
            | Ok (argv, None) =>
                match dispatch session argv w with
                | (Ok resp, w') =>
                    let resp := if is_info argv then resp else escape_strings resp in
                    (Some (Ok (rep ++ [reply resp false])), w')
                | (Raise e, w') =>
                    (Some (Ok (rep ++ [reply (VStr (exn_str e)) true])), w')
                end
            end
        end
  end.

(** The [for] loop of [execute_commands]. *)
Fixpoint execute_loop (session : Session) (commands : list str)
    (rep : list Reply) (w : world) : option (result (list Reply)) * world :=
  match commands with
  | [] => (Some (Ok rep), w)
  | command :: commands' =>
      match execute_command session command rep w with
      | (Some (Ok rep'), w') => execute_loop session commands' rep' w'
      | stop => stop
      end
  end.

Definition execute_commands (session : Session) (commands : list str) (w : world)
  : option (result (list Reply)) * world :=
  execute_loop session commands [] w.

(** What one command adds to the reply list, and the world after it. *)
Definition command_replies (session : Session) (command : str) (w : world)
  : list Reply * world :=
  match execute_command session command [] w with
  | (Some (Ok rep), w') => (rep, w')
  | (_, w') => ([], w')
  end.

(** What each command of a batch adds to the reply list, in order. *)
Fixpoint batch_replies (session : Session) (commands : list str) (w : world)
  : list (list Reply) :=
  match commands with
  | [] => []
  | command :: commands' =>
      let '(new, w') := command_replies session command w in
      new :: batch_replies session commands' w'
  end.

(** Modelled from the spec: what the request handler answers, the rejection
    of the batch or the outcome of [execute_commands]. *)
Inductive response :=
| Rejected (r : rejection)
| Replies (rep : option (result (list Reply))).

(** Modelled from the spec: the request handler, which is not in
    [interwebz/api.py].  Section 4.5 has it validate the batch first
    ([ValidateBatch]) and run the commands only when the batch passes;
    section 7 has a rejected request answered with the denial alone. *)
Definition handle_request (session : Session) (commands : list str) (w : world)
  : response * world :=
  match verify_commands (PyList (map PyStr commands)) with
  | Some r => (Rejected r, w)
  | None =>
      let '(rep, w') := execute_commands session commands w in
      (Replies rep, w')
  end.

End Orchestrator.

Arguments world : clear implicits.

(** ** Store clients to run the pipeline on

    The store of these clients counts the calls it received. *)

Module TestClient.

(** Answers every command with [v]. *)
Definition constant (v : value) : unit -> list str -> nat -> result value * nat :=
  fun _ _ n => (Ok v, S n).

(** Raises on every command. *)
Definition failing (msg : str) : unit -> list str -> nat -> result value * nat :=
  fun _ _ n => (Raise (OtherError msg), S n).

Definition fresh : world nat := {| store := 0%nat; calls := [] |}.

End TestClient.

(** ** Notions the further properties are stated with *)

(** The strings a response holds as values, in order: a string itself, the
    strings of the elements of a list, those of the values of a dict (its
    keys are no part of them). *)
Fixpoint strings_of (v : value) : list str :=
  match v with
  | VStr s => [s]
  | VList l => concat (map strings_of l)
  | VDict d => concat (map (fun kv => match kv with (_, x) => strings_of x end) d)
  | VOther _ => []
  end.

(** A character [escape_strings] leaves as it is. *)
Definition plain_char (c : ascii) : bool :=
  isprintable c && negb (Ascii.eqb c backslash) && negb (Ascii.eqb c dquote).

(** [' '.join(words)] *)
Fixpoint join_blank (words : list str) : str :=
  match words with
  | [] => []
  | [w] => w
  | w :: ws => w ++ " "%char :: join_blank ws
  end.

(** A word of the lexer: not empty, and made of the characters of
    [wordchars] (ASCII letters, digits and the underscore). *)
Definition is_word (w : str) : Prop :=
  w <> [] /\ Forall (fun c => char_in c Shlex.wordchars_ascii = true) w.

(** The states of a lexer that is not in an escape, and those of a lexer that
    is neither in an escape nor in a quoted run. *)
Definition no_escape (lx : Shlex.lexer) : Prop :=
  match Shlex.state lx with
  | Some (Shlex.in_escape _) => False
  | _ => True
  end.

Definition no_quote (lx : Shlex.lexer) : Prop :=
  match Shlex.state lx with
  | Some (Shlex.in_escape _) | Some (Shlex.in_quote _) => False
  | _ => True
  end.

(** An argument vector within the limits: between 1 and [max_arguments]
    arguments, each of at most [max_argument_size] characters. *)
Definition within_limits (argv : list str) : Prop :=
  (1 <= length argv <= 25)%nat /\ Forall (fun a : str => (length a <= 256)%nat) argv.

(** The replies without error. *)
Definition successes (rep : list Reply) : list Reply :=
  List.filter (fun r => negb (reply_error r)) rep.

(** A token that does not begin with a quote character. *)
Definition unquoted_start (t : str) : Prop :=
  match t with
  | c :: _ => char_in c Shlex.quotes = false
  | [] => True
  end.

(** A quoted run: a quote character, characters other than it, and the same
    quote character again.  [open_run] is one that lacks its last quote. *)
Definition open_run (q : ascii) (t : str) : Prop :=
  exists body, t = q :: body /\ ~ In q body.

Definition closed_run (t : str) : Prop :=
  exists q body, char_in q Shlex.quotes = true /\ t = q :: body ++ [q] /\ ~ In q body.

(** What holds of a lexer out of POSIX mode at each turn of the loop of
    [read_token]: between tokens the token is empty, inside a word it begins
    with a character that is no quote, inside a quoted run it is the run so
    far; and no token pushed back begins with a quote. *)
Definition lexing (lx : Shlex.lexer) : Prop :=
  Forall unquoted_start (Shlex.pushback lx)
  /\ match Shlex.state lx with
     | None | Some Shlex.in_space => Shlex.token lx = []
     | Some Shlex.in_word => Shlex.token lx <> [] /\ unquoted_start (Shlex.token lx)
     | Some (Shlex.in_quote q) =>
         char_in q Shlex.quotes = true /\ open_run q (Shlex.token lx)
     | Some (Shlex.in_escape _) => False
     end.

(** What holds of it when the loop is left. *)
Definition lexed (lx : Shlex.lexer) : Prop :=
  Forall unquoted_start (Shlex.pushback lx)
  /\ (unquoted_start (Shlex.token lx) \/ closed_run (Shlex.token lx))
  /\ (Shlex.state lx = None \/ Shlex.state lx = Some Shlex.in_space).

(** * Properties *)

(** ** Strings *)

Lemma str_eqb_eq (a b : str) : str_eqb a b = true <-> a = b.
Proof.
  revert b. induction a as [|x a IH]; intros [|y b]; simpl; split; try done.
  - intros [Hxy Hab]%andb_true_iff. apply Ascii.eqb_eq in Hxy. apply IH in Hab.
    by subst.
  - intros [= -> ->]. rewrite Ascii.eqb_refl. by apply IH.
Qed.

Lemma str_eqb_refl (a : str) : str_eqb a a = true.
Proof. by apply str_eqb_eq. Qed.

Lemma str_eqb_neq (a b : str) : str_eqb a b = false <-> a <> b.
Proof.
  rewrite <- str_eqb_eq. destruct (str_eqb a b); split; congruence.
Qed.

(** [s[:n]] keeps the first [n] characters when [n] is not negative. *)
Lemma slice_to_take {A} (n : Z) (s : list A) :
  0 <= n -> slice_to n s = take (Z.to_nat n) s.
Proof.
  intros Hn. unfold slice_to, slice, clamp.
  destruct (Z.ltb_spec n 0) as [?|_]; [lia|]. simpl.
  replace (Z.to_nat (Z.max 0 (Z.min 0 (Z.of_nat (length s))))) with 0%nat by lia.
  rewrite drop_0, Nat.sub_0_r.
  destruct (Z.le_gt_cases n (Z.of_nat (length s))).
  - f_equal. lia.
  - rewrite !take_ge; [done| |]; lia.
Qed.

(** ** The lexer *)

Module ShlexFacts.
Import Shlex.

Lemma readline_length (l : str) : (length (readline l) <= length l)%nat.
Proof. induction l as [|d l IH]; simpl; [lia|]. destruct (Ascii.eqb d _); simpl; lia. Qed.

(** The loop of [read_token], one turn unfolded. *)
Lemma read_loop_cons cfg c rest lx loc :
  read_loop cfg (c :: rest) lx loc =
  match turn_char cfg c lx loc with
  | (false, Continue lx' loc') => read_loop cfg rest lx' loc'
  | (false, Break lx' loc') => Ok (lx', loc', rest)
  | (true, Continue lx' loc') => read_loop cfg (readline rest) lx' loc'
  | (true, Break lx' loc') => Ok (lx', loc', readline rest)
  | (_, Raising e) => Raise e
  end.
Proof.
  simpl. destruct (turn_char cfg c lx loc) as [[|] t]; [|done].
  induction rest as [|d l IH]; simpl.
  - by destruct t.
  - destruct (Ascii.eqb d _); [by destruct t|]. apply IH.
Qed.

Lemma emit_pushback cfg lx loc :
  match emit cfg lx loc with
  | Continue lx' _ | Break lx' _ => lx' = lx
  | Raising _ => False
  end.
Proof. unfold emit. destruct (token lx); [destruct (_ && _)|]; done. Qed.

(** A turn pushes back at most one token. *)
Lemma turn_char_pushback cfg c lx loc :
  match (turn_char cfg c lx loc).2 with
  | Continue lx' _ | Break lx' _ =>
      (length (pushback lx') <= S (length (pushback lx)))%nat
  | Raising _ => True
  end.
Proof.
  unfold turn_char.
  destruct (state lx) as [[| |q|e]|]; simpl;
    repeat match goal with
    | |- context [emit ?cfg ?l ?lo] =>
        let H := fresh in
        pose proof (emit_pushback cfg l lo) as H;
        destruct (emit cfg l lo); [subst; simpl ..| destruct H]
    | |- context [if ?b then _ else _] => destruct b; simpl
    end; lia.
Qed.

(** The loop of [read_token] uses up the stream: on an exhausted stream it
    leaves the pushback alone and the token as it was or empty, and on any
    other it reads at least one character for at most one token pushed
    back per character. *)
Lemma read_loop_measure cfg input lx loc lx' loc' rest :
  read_loop cfg input lx loc = Ok (lx', loc', rest) ->
  match input with
  | [] => rest = [] /\ pushback lx' = pushback lx
          /\ (token lx' = token lx \/ token lx' = [])
  | _ :: _ =>
      (2 * length rest + length (pushback lx')
       < 2 * length input + length (pushback lx))%nat
  end.
Proof.
  remember (length input) as n eqn:Hn.
  revert input lx loc Hn. induction (lt_wf n) as [n _ IH].
  intros [|c input] lx loc Hn.
  - simpl. unfold read_loop_eof, turn_eof.
    destruct (state lx) as [[| |q|e]|]; simpl; intros [= <- <- <-]; simpl; auto.
  - rewrite read_loop_cons.
    pose proof (turn_char_pushback cfg c lx loc) as Hpb.
    pose proof (readline_length input) as Hrl.
    destruct (turn_char cfg c lx loc) as [[|] [lx1 loc1|lx1 loc1|e]];
      simpl in Hpb; simpl length in *; try done.
    + intros Hloop.
      eapply (IH (length (readline input))) in Hloop; [|lia|done].
      destruct (readline input); [destruct Hloop as (-> & -> & _)|];
        simpl in *; lia.
    + intros [= <- <- <-]. lia.
    + intros Hloop.
      eapply (IH (length input)) in Hloop; [|lia|done].
      destruct input; [destruct Hloop as (-> & -> & _)|]; simpl in *; lia.
    + intros [= <- <- <-]. lia.
Qed.

Lemma turn_char_no_raise cfg c lx loc e :
  (turn_char cfg c lx loc).2 <> Raising e.
Proof.
  assert (Hemit : forall l lo, emit cfg l lo <> Raising e).
  { intros l lo. pose proof (emit_pushback cfg l lo) as H.
    destruct (emit cfg l lo); done. }
  unfold turn_char.
  destruct (state lx) as [[| |q|y]|]; simpl;
    repeat (match goal with
            | |- context [if ?b then _ else _] => destruct b; simpl
            end); solve [done | apply Hemit].
Qed.

(** The lexer raises nothing but [ValueError]. *)
Lemma read_loop_raises cfg input lx loc e :
  read_loop cfg input lx loc = Raise e -> exists m, e = ValueError m.
Proof.
  remember (length input) as n eqn:Hn.
  revert input lx loc Hn. induction (lt_wf n) as [n _ IH].
  intros [|c input] lx loc Hn.
  - simpl. unfold read_loop_eof, turn_eof.
    destruct (state lx) as [[| |q|x]|]; simpl; intros [= <-]; eauto.
  - rewrite read_loop_cons.
    pose proof (readline_length input) as Hrl.
    pose proof (turn_char_no_raise cfg c lx loc) as Hnr.
    destruct (turn_char cfg c lx loc) as [[|] [lx1 loc1|lx1 loc1|x]];
      simpl length in *; simpl in Hnr; try done.
    + eapply (IH (length (readline input))); [lia|done].
    + by destruct (Hnr x).
    + eapply (IH (length input)); [lia|done].
    + by destruct (Hnr x).
Qed.

End ShlexFacts.

(** ** Tokenizing a command *)

Section Tokens.
Import Shlex ShlexFacts.

Variable cfg : config.
Hypothesis not_posix : posix cfg = false.

(** A lexer that is not in POSIX mode returns [''] at the end of its input,
    so the iteration stops: the calls are bounded by twice the characters
    left plus the tokens pushed back. *)
Lemma iter_get_token_returns (fuel : nat) (lx : lexer) (input : str) :
  token lx = [] ->
  (2 * length input + length (pushback lx) < fuel)%nat ->
  exists r, iter_get_token fuel cfg lx input = Some r.
Proof using not_posix.
  revert lx input. induction fuel as [|fuel IH]; intros lx input Htok Hfuel; [lia|].
  simpl. unfold get_token.
  destruct (pushback lx) as [|tok pb] eqn:Hpb.
  - unfold read_token.
    destruct (read_loop cfg input lx _) as [[[lx' loc'] rest]|e] eqn:Hloop;
      simpl; [|eauto].
    apply read_loop_measure in Hloop. rewrite Hpb in Hloop. rewrite not_posix. simpl.
    destruct (token lx') as [|t ts] eqn:Htok'; [eauto|].
    destruct input as [|c input].
    { destruct Hloop as (_ & _ & [H|H]); congruence. }
    destruct (IH (set_token [] lx') rest) as [r Hr]; [done|simpl in *; lia|].
    rewrite Hr. destruct r; eauto.
  - destruct (IH {| state := state lx; token := token lx; pushback := pb |} input)
      as [r Hr]; [done|simpl in *; lia|].
    destruct tok; [eauto|]. rewrite Hr. destruct r; eauto.
Qed.

Lemma iter_get_token_raises (fuel : nat) (lx : lexer) (input : str) e :
  iter_get_token fuel cfg lx input = Some (Raise e) -> exists m, e = ValueError m.
Proof.
  revert lx input. induction fuel as [|fuel IH]; intros lx input; [done|].
  simpl. unfold get_token.
  destruct (pushback lx) as [|tok pb].
  - unfold read_token.
    destruct (read_loop cfg input lx _) as [[[lx' loc'] rest]|x] eqn:Hloop; simpl.
    + destruct (token lx') as [|t ts]; [destruct (_ && _)|].
      * destruct (iter_get_token fuel _ _ _) as [[]|] eqn:Hi; try done.
        intros [= ->]. eauto.
      * done.
      * destruct (iter_get_token fuel _ _ _) as [[]|] eqn:Hi; try done.
        intros [= ->]. eauto.
    + intros [= ->]. by eapply read_loop_raises.
  - destruct tok; [done|].
    destruct (iter_get_token fuel _ _ _) as [[]|] eqn:Hi; try done.
    intros [= ->]. eauto.
Qed.

(** Its tokens are strings, Python's [None] never. *)
Lemma iter_get_token_strings (fuel : nat) (lx : lexer) (input : str)
    (toks : list (option str)) :
  iter_get_token fuel cfg lx input = Some (Ok toks) -> Forall is_Some toks.
Proof using not_posix.
  revert lx input toks. induction fuel as [|fuel IH]; intros lx input toks; [done|].
  simpl. unfold get_token.
  destruct (pushback lx) as [|tok pb].
  - unfold read_token.
    destruct (read_loop cfg input lx _) as [[[lx' loc'] rest]|x]; simpl; [|done].
    rewrite not_posix. simpl.
    destruct (token lx') as [|t ts]; [by intros [= <-]|].
    destruct (iter_get_token fuel _ _ _) as [[toks'|]|] eqn:Hi; try done.
    intros [= <-]. constructor; [by eexists|]. by eapply IH.
  - destruct tok; [by intros [= <-]|].
    destruct (iter_get_token fuel _ _ _) as [[toks'|]|] eqn:Hi; try done.
    intros [= <-]. constructor; [by eexists|]. by eapply IH.
Qed.

(** White space alone yields no token. *)
Lemma read_loop_blank (input : str) (lx : lexer) (loc : locals) :
  Forall (fun c => char_in c whitespace = true) input ->
  state lx = Some in_space -> token lx = [] ->
  read_loop cfg input lx loc = Ok (set_state None lx, loc, []).
Proof using not_posix.
  intros Hws Hst Htok. induction Hws as [|c input Hc _ IH].
  - simpl. unfold read_loop_eof, turn_eof. by rewrite Hst.
  - rewrite read_loop_cons. unfold turn_char, emit.
    by rewrite Hst, Hc, Htok, not_posix.
Qed.

End Tokens.

(** [tokens] returns: the lexer of [execute_commands] is not in POSIX mode. *)
Lemma tokens_returns (command : str) : exists r, tokens command = Some r.
Proof.
  apply iter_get_token_returns; [done|done|]. simpl. lia.
Qed.

Lemma tokens_raises (command : str) e :
  tokens command = Some (Raise e) -> exists m, e = ValueError m.
Proof. apply iter_get_token_raises. Qed.

Lemma tokens_strings (command : str) (raw : list (option str)) :
  tokens command = Some (Ok raw) -> Forall is_Some raw.
Proof. by apply iter_get_token_strings. Qed.

(** So the loop over the arguments never meets one that is not a string. *)
Lemma sanitize_arguments_strings (raw : list (option str)) :
  Forall is_Some raw -> sanitize_arguments raw = Some (sanitize_argument <$> omap id raw).
Proof.
  induction 1 as [|[a|] raw [b Hb] _ IH]; simpl; [done| |done].
  by rewrite IH.
Qed.

Lemma tokens_blank (command : str) :
  Forall (fun c => char_in c Shlex.whitespace = true) command ->
  tokens command = Some (Ok []).
Proof.
  intros Hws. unfold tokens. cbn [iter_get_token].
  unfold Shlex.get_token, Shlex.read_token. cbn [Shlex.pushback Shlex.new].
  by rewrite (read_loop_blank (Shlex.default_config false) eq_refl command Shlex.new _ Hws).
Qed.

(** ** The policy engine *)

(** The command names [sanitize_exceptions] rejects for any arguments. *)
Lemma banned_not_offset_command (name : str) :
  In name [lit "quit"; lit "hello"; lit "reset"; lit "auth"] ->
  str_eqb name (lit "setbit") = false /\ str_eqb name (lit "setrange") = false
  /\ existsb (str_eqb name) [lit "quit"; lit "hello"; lit "reset"; lit "auth"] = true.
Proof.
  simpl. intros [<-|[<-|[<-|[<-|[]]]]]; done.
Qed.

(** [sanitize_exceptions] returns on every argument vector that is not empty,
    and changes at most the fourth argument of a [SETRANGE] of four. *)
Lemma sanitize_exceptions_frame (a0 : str) (rest : list str) :
  exists argv' r,
    sanitize_exceptions (a0 :: rest) = Ok (argv', r)
    /\ (argv' = a0 :: rest
        \/ (lower a0 = lit "setrange" /\ length (a0 :: rest) = 4%nat
            /\ exists v, argv' = <[3%nat := v]> (a0 :: rest))).
Proof.
  unfold sanitize_exceptions. cbn [getitem lookup list_lookup bind].
  destruct (str_eqb (lower a0) (lit "setbit") && _) eqn:Hbit.
  { apply andb_true_iff in Hbit as [_ Hlen%Z.eqb_eq].
    destruct rest as [|a1 [|a2 [|a3 [|? ?]]]]; simpl in Hlen; try lia.
    cbn [getitem lookup list_lookup bind]. unfold int.
    destruct (parse_int 10 a2) as [offset|]; simpl; [|eauto].
    destruct (offset >? _); simpl; eauto. }
  destruct (str_eqb (lower a0) (lit "setrange") && _) eqn:Hrange.
  { apply andb_true_iff in Hrange as [Hname%str_eqb_eq Hlen%Z.eqb_eq].
    destruct rest as [|a1 [|a2 [|a3 [|? ?]]]]; simpl in Hlen; try lia.
    cbn [getitem setitem lookup list_lookup bind]. unfold int.
    destruct (parse_int 10 a2) as [offset|]; simpl.
    - destruct (offset >? _); simpl; eauto 10.
    - eauto 10. }
  destruct (existsb _ _); eauto.
Qed.

Lemma sanitize_arguments_length (raw : list (option str)) (argv : list str) :
  sanitize_arguments raw = Some argv -> length argv = length raw.
Proof.
  revert argv. induction raw as [|[a|] raw IH]; intros argv; simpl; try done.
  - by intros [= <-].
  - destruct (sanitize_arguments raw); [|done]. intros [= <-]. simpl. by rewrite (IH l).
Qed.

Lemma sanitize_arguments_lookup (raw : list (option str)) (argv : list str) i a :
  sanitize_arguments raw = Some argv -> raw !! i = Some (Some a) ->
  argv !! i = Some (sanitize_argument a).
Proof.
  revert argv i. induction raw as [|[b|] raw IH]; intros argv i; simpl; try done.
  destruct (sanitize_arguments raw) as [r|]; [|done]. intros [= <-].
  destruct i as [|i]; simpl; [by intros [= ->]|]. by apply IH.
Qed.

(** ** C1: the commands that are always denied *)

(** C1.  When the first argument of an argument vector lower-cases to [quit],
    [hello], [reset] or [auth], whatever follows it, the policy engine returns
    a rejection message; and a command line whose decoded argument vector is
    such a vector makes the batch orchestrator append one denial Reply and
    leave the store and the list of dispatched commands as they were. *)
Theorem C1_session_commands_denied {Store Session : Type}
    (client : Session -> list str -> Store -> result value * Store)
    (session : Session) (a0 : str) (rest : list str) :
  In (lower a0) [lit "quit"; lit "hello"; lit "reset"; lit "auth"] ->
  sanitize_exceptions (a0 :: rest)
  = Ok (a0 :: rest, Some (lit "the '" ++ a0 ++ lit "' command is not"))
  /\ forall (command : str) (raw : list (option str)) (rep : list Reply) (w : world Store),
       tokens command = Some (Ok raw) ->
       sanitize_arguments raw = Some (a0 :: rest) ->
       exists message,
         execute_command client session command rep w
         = (Some (Ok (rep ++ [deny message])), w).
Proof.
  intros Hname. apply banned_not_offset_command in Hname as (Hbit & Hrange & Hban).
  assert (Hpolicy : sanitize_exceptions (a0 :: rest)
                    = Ok (a0 :: rest, Some (lit "the '" ++ a0 ++ lit "' command is not"))).
  { unfold sanitize_exceptions. cbn [getitem lookup list_lookup bind].
    by rewrite Hbit, Hrange, Hban. }
  split; [done|].
  intros command raw rep w Htok Hargs. unfold execute_command. rewrite Htok.
  apply sanitize_arguments_length in Hargs as Hlen. simpl in Hlen.
  destruct (Z.eqb_spec (Z.of_nat (length raw)) 0) as [?|_]; [lia|].
  destruct (_ >? max_arguments); [eauto|].
  rewrite Hargs, Hpolicy. eauto.
Qed.

Lemma C1_session_commands_denied_witness :
  sanitize_exceptions [lit "QUIT"; lit "now"]
  = Ok ([lit "QUIT"; lit "now"], Some (lit "the 'QUIT' command is not"))
  /\ exists message,
       execute_command (TestClient.constant (VOther 0)) tt (lit "QUIT now") []
         TestClient.fresh
       = (Some (Ok ([] ++ [deny message])), TestClient.fresh).
Proof.
  pose proof (C1_session_commands_denied (TestClient.constant (VOther 0)) tt
                (lit "QUIT") [lit "now"]) as H.
  destruct H as [Hpolicy Hbatch].
  - simpl. auto.
  - split; [exact Hpolicy|].
    apply (Hbatch (lit "QUIT now") [Some (lit "QUIT"); Some (lit "now")]);
      reflexivity.
Defined.

(** ** C5: the policy for SETRANGE *)

(** C5.  For a [SETRANGE] of exactly four arguments: an offset that parses as
    an integer above 256 is rejected with the bounds message; an offset that
    parses as an integer of at most 256 has the value argument cut in place
    to its first [257 - offset] characters, with no violation reported; and
    an offset that does not parse clears the value argument to the empty
    string, with no violation reported either. *)
Theorem C5_setrange_policy (a0 a1 a2 a3 : str) :
  lower a0 = lit "setrange" ->
  (forall offset, parse_int 10 a2 = Some offset -> 256 < offset ->
     sanitize_exceptions [a0; a1; a2; a3]
     = Ok ([a0; a1; a2; a3],
           Some (lit "offset too big - only up to 256 bytes allowed")))
  /\ (forall offset, parse_int 10 a2 = Some offset -> offset <= 256 ->
        sanitize_exceptions [a0; a1; a2; a3]
        = Ok ([a0; a1; a2; take (Z.to_nat (257 - offset)) a3], None))
  /\ (parse_int 10 a2 = None ->
        sanitize_exceptions [a0; a1; a2; a3] = Ok ([a0; a1; a2; []], None)).
Proof.
  intros Hname.
  assert (Hunfold : sanitize_exceptions [a0; a1; a2; a3]
    = try_except_ValueError
        (offset <- int 10 a2 ;;
         if offset >? max_argument_size then
           Ok ([a0; a1; a2; a3],
               Some (lit "offset too big - only up to " ++ str_of_int max_argument_size
                     ++ lit " bytes allowed"))
         else Ok ([a0; a1; a2; slice_to (max_argument_size - offset + 1) a3], None))
        (fun _ => Ok ([a0; a1; a2; []], None))).
  { unfold sanitize_exceptions. cbn [getitem lookup list_lookup bind].
    rewrite Hname. reflexivity. }
  rewrite Hunfold. unfold int, max_argument_size. repeat split.
  - intros offset -> Hbig. simpl.
    destruct (Z.gtb_spec offset 256); [done|lia].
  - intros offset -> Hsmall. simpl.
    destruct (Z.gtb_spec offset 256); [lia|].
    rewrite slice_to_take by lia.
    by replace (256 - offset + 1) with (257 - offset) by lia.
  - by intros ->.
Qed.

Lemma C5_setrange_policy_witness :
  sanitize_exceptions [lit "SetRange"; lit "k"; lit "300"; lit "abcdefghijklmnop"]
  = Ok ([lit "SetRange"; lit "k"; lit "300"; lit "abcdefghijklmnop"],
        Some (lit "offset too big - only up to 256 bytes allowed"))
  /\ sanitize_exceptions [lit "SetRange"; lit "k"; lit "250"; lit "abcdefghijklmnop"]
     = Ok ([lit "SetRange"; lit "k"; lit "250"; lit "abcdefg"], None)
  /\ sanitize_exceptions [lit "SetRange"; lit "k"; lit "soon"; lit "abcdefghijklmnop"]
     = Ok ([lit "SetRange"; lit "k"; lit "soon"; []], None).
Proof.
  split; [|split].
  - apply (proj1 (C5_setrange_policy (lit "SetRange") (lit "k") (lit "300")
                    (lit "abcdefghijklmnop") eq_refl) 300); [reflexivity|lia].
  - apply (proj1 (proj2 (C5_setrange_policy (lit "SetRange") (lit "k") (lit "250")
                           (lit "abcdefghijklmnop") eq_refl)) 250); [reflexivity|lia].
  - apply (proj2 (proj2 (C5_setrange_policy (lit "SetRange") (lit "k") (lit "soon")
                           (lit "abcdefghijklmnop") eq_refl))); reflexivity.
Defined.

(** ** C10: batches of more than twenty commands *)

(** C10.  A batch of more than 20 commands is rejected by [verify_commands]
    with the one denial message; and a request handler that validates the
    batch before it runs it, as the specification describes, answers with
    that denial alone, the store and the list of dispatched commands left
    as they were. *)
Theorem C10_oversized_batch_rejected {Store Session : Type}
    (client : Session -> list str -> Store -> result value * Store)
    (session : Session) (l : list pyobj) :
  (20 < length l)%nat ->
  verify_commands (PyList l)
  = Some (Denied (deny (lit "batch is too large. Only up to 20 commands")))
  /\ forall (commands : list str) (w : world Store),
       l = map PyStr commands ->
       handle_request client session commands w
       = (Rejected (Denied (deny (lit "batch is too large. Only up to 20 commands"))), w).
Proof.
  intros Hlen.
  assert (Hverify : verify_commands (PyList l)
    = Some (Denied (deny (lit "batch is too large. Only up to 20 commands")))).
  { unfold verify_commands, max_batch_size.
    destruct (Z.gtb_spec (Z.of_nat (length l)) 20); [done|lia]. }
  split; [done|].
  intros commands w ->. unfold handle_request. by rewrite Hverify.
Qed.

Lemma C10_oversized_batch_rejected_witness :
  verify_commands (PyList (map PyStr (repeat (lit "INCR hits") 21)))
  = Some (Denied (deny (lit "batch is too large. Only up to 20 commands")))
  /\ handle_request (TestClient.constant (VOther 1)) tt (repeat (lit "INCR hits") 21)
       TestClient.fresh
     = (Rejected (Denied (deny (lit "batch is too large. Only up to 20 commands"))),
        TestClient.fresh).
Proof.
  pose proof (C10_oversized_batch_rejected (TestClient.constant (VOther 1)) tt
                (map PyStr (repeat (lit "INCR hits") 21))) as H.
  destruct H as [Hverify Hhandle].
  - simpl. lia.
  - split; [exact Hverify|]. by apply Hhandle.
Defined.

(** ** C7: escaping a string of a response *)

Lemma escape_char_unescapes (c : ascii) :
  isprintable c = true -> dict_get unescapes c c = c.
Proof.
  intros Hc. unfold unescapes, escapes. cbn [map dict_get].
  repeat match goal with
         | |- context [Ascii.eqb ?k c] =>
             destruct (Ascii.eqb_spec k c) as [<-|_]; [vm_compute in Hc; discriminate|]
         end.
  reflexivity.
Qed.

(** A character that needs no escape. *)
Lemma escape_char_plain (c : ascii) :
  isprintable c = true -> c <> backslash -> c <> dquote -> escape_char c = [c].
Proof.
  intros Hp Hb Hq. unfold escape_char.
  destruct (Ascii.eqb_spec c backslash); [done|].
  destruct (Ascii.eqb_spec c dquote); [done|].
  by rewrite Hp, escape_char_unescapes.
Qed.

(** Every other character is replaced by more than one character. *)
Lemma escape_char_length (c : ascii) :
  (1 <= length (escape_char c))%nat
  /\ (isprintable c && negb (Ascii.eqb c backslash) && negb (Ascii.eqb c dquote) = false ->
      (2 <= length (escape_char c))%nat).
Proof.
  unfold escape_char.
  destruct (Ascii.eqb c backslash); [simpl; split; intros; lia|].
  destruct (Ascii.eqb c dquote); [simpl; split; intros; lia|].
  destruct (isprintable c); simpl; split; try lia; done.
Qed.

Lemma escape_loop_concat (resp escaped : str) :
  fold_left (fun escaped c => escaped ++ escape_char c) resp escaped
  = escaped ++ concat (map escape_char resp).
Proof.
  revert escaped. induction resp as [|c resp IH]; intros escaped; simpl.
  - by rewrite app_nil_r.
  - by rewrite IH, <- app_assoc.
Qed.

(** The string case of [escape_strings]: a string of characters that need no
    escape is returned as it is, and any other comes back in double quotes,
    each character replaced by its escape. *)
Lemma escape_str_spec (resp : str) :
  escape_str resp
  = if forallb (fun c => isprintable c && negb (Ascii.eqb c backslash)
                         && negb (Ascii.eqb c dquote)) resp
    then resp
    else dquote :: concat (map escape_char resp) ++ [dquote].
Proof.
  unfold escape_str. rewrite escape_loop_concat. cbn [app].
  destruct (forallb _ resp) eqn:Hall.
  - assert (Hsame : concat (map escape_char resp) = resp).
    { induction resp as [|c resp IH]; [done|]. simpl in Hall.
      apply andb_true_iff in Hall as [Hc Hall].
      apply andb_true_iff in Hc as [Hc Hq]. apply andb_true_iff in Hc as [Hp Hb].
      simpl. rewrite (IH Hall), escape_char_plain; [done|done| |].
      - intros ->. by rewrite Ascii.eqb_refl in Hb.
      - intros ->. by rewrite Ascii.eqb_refl in Hq. }
    by rewrite Hsame, str_eqb_refl.
  - assert (Hlonger : (length resp < length (concat (map escape_char resp)))%nat).
    { induction resp as [|c resp IH]; [done|]. simpl in Hall. simpl.
      rewrite length_app. destruct (escape_char_length c) as [H1 H2].
      assert (Hle : forall l : str, (length l <= length (concat (map escape_char l)))%nat).
      { induction l as [|d l IHl]; simpl; [lia|]. rewrite length_app.
        destruct (escape_char_length d). lia. }
      apply andb_false_iff in Hall as [Hc|Hall].
      - specialize (H2 Hc). specialize (Hle resp). lia.
      - specialize (IH Hall). lia. }
    destruct (str_eqb _ resp) eqn:Heq; [|done].
    apply str_eqb_eq in Heq. rewrite Heq in Hlonger. lia.
Qed.

(** C7.  On the string [a], line feed, [b] the escaper returns the line feed
    as a hexadecimal escape, not as the named escape [\n]: the five
    characters of the reverse table are not printable, so the branch for
    characters that are not printable takes each of them before the table is
    looked up, and on a printable character the table changes nothing. *)
Theorem C7_named_escapes_not_produced :
  escape_strings (VStr ["a"%char; "010"%char; "b"%char])
  = VStr (dquote :: lit "a\x0ab" ++ [dquote])
  /\ (forall c, In c (map fst unescapes) ->
        escape_char c = backslash :: "x"%char :: format_02x (ord c))
  /\ (forall c, isprintable c = true -> dict_get unescapes c c = c).
Proof.
  split; [reflexivity|]. split; [|apply escape_char_unescapes].
  simpl. intros c [<-|[<-|[<-|[<-|[<-|[]]]]]]; reflexivity.
Qed.

(** ** C3: the tokenizer *)

(** C3.  The lexer that [execute_commands] iterates is not the one it
    configures: on [SET k #v] it drops the comment [#v], where the configured
    lexer keeps three words; it returns a quoted run with its quotes; and it
    splits a word at each character that is neither a letter, a digit nor an
    underscore. *)
Theorem C3_tokens_not_posix_splitting :
  tokens (lit "SET k #v") = Some (Ok [Some (lit "SET"); Some (lit "k")])
  /\ Shlex.to_list 10 lex_config Shlex.new (lit "SET k #v")
     = Some (Ok [Some (lit "SET"); Some (lit "k"); Some (lit "#v")])
  /\ tokens (lit "GET 'a b'") = Some (Ok [Some (lit "GET"); Some (lit "'a b'")])
  /\ Shlex.to_list 10 lex_config Shlex.new (lit "GET 'a b'")
     = Some (Ok [Some (lit "GET"); Some (lit "a b")])
  /\ tokens (lit "GET user:1")
     = Some (Ok [Some (lit "GET"); Some (lit "user"); Some (lit ":"); Some (lit "1")])
  /\ Shlex.to_list 10 lex_config Shlex.new (lit "GET user:1")
     = Some (Ok [Some (lit "GET"); Some (lit "user:1")]).
Proof.
  split; [reflexivity|]. split; [reflexivity|]. split; [reflexivity|].
  split; [reflexivity|]. split; reflexivity.
Qed.

(** ** C6: decoding a double-quoted token *)

Lemma all_chars_complete (c : ascii) : In c all_chars.
Proof.
  unfold all_chars. rewrite <- (ascii_nat_embedding c).
  apply in_map, in_seq. pose proof (nat_ascii_bounded c). lia.
Qed.

Lemma forall_chars (P : ascii -> bool) :
  forallb P all_chars = true -> forall c, P c = true.
Proof.
  intros H c. eapply forallb_forall in H; [done|apply all_chars_complete].
Qed.

Lemma forall2_chars (P : ascii -> ascii -> bool) :
  forallb (fun a => forallb (P a) all_chars) all_chars = true ->
  forall a b, P a b = true.
Proof.
  intros H a b. apply (forall_chars (P a)). by apply (forall_chars _ H).
Qed.


(** [int] of two characters stays below 256, where the model has [chr]. *)
Lemma int16_two_chars_bound (h1 h2 : ascii) (n : Z) :
  parse_int 16 [h1; h2] = Some n -> -16 < n < 256.
Proof.
  intros Hn.
  pose proof (forall2_chars
    (fun a b => match parse_int 16 [a; b] with
                | Some n => (-16 <? n) && (n <? 256)
                | None => true
                end)) as H.
  specialize (H ltac:(vm_compute; reflexivity) h1 h2). cbv beta in H.
  rewrite Hn in H. lia.
Qed.


(** [token[1:-1]] drops the first and the last character. *)
Lemma slice_interior {A} (first last : A) (body : list A) :
  slice 1 (-1) (first :: body ++ [last]) = body.
Proof.
  unfold slice, clamp. simpl length. rewrite length_app. simpl length.
  destruct (Z.ltb_spec 1 0) as [?|_]; [lia|].
  destruct (Z.ltb_spec (-1) 0) as [_|?]; [|lia].
  replace (Z.to_nat (Z.max 0 (Z.min 1 _))) with 1%nat by lia.
  replace (Z.to_nat (Z.max 0 (Z.min (-1 + _) _)) - 1)%nat with (length body) by lia.
  simpl. by rewrite drop_0, take_app_length.
Qed.


(** What the loop does at a backslash before [x] and two more characters,
    whatever they are: [int] may accept them without their being two digits
    (a digit after a sign or next to white space), and [chr] refuses what is
    negative. *)
Lemma unescape_loop_hex (h1 h2 : ascii) (rest result : str) :
  unescape_loop (backslash :: "x"%char :: h1 :: h2 :: rest) result
  = match parse_int 16 [h1; h2] with
    | Some n =>
        if 0 <=? n then unescape_loop rest (result ++ [ascii_of_N (Z.to_N n)])
        else unescape_loop ("x"%char :: h1 :: h2 :: rest) (result ++ [backslash])
    | None => unescape_loop ("x"%char :: h1 :: h2 :: rest) (result ++ [backslash])
    end.
Proof.
  cbn [unescape_loop]. rewrite Ascii.eqb_refl. simpl (Ascii.eqb "x" "x").
  unfold int. destruct (parse_int 16 [h1; h2]) as [n|] eqn:Hn; [|done].
  apply int16_two_chars_bound in Hn. cbn [bind]. unfold chr.
  destruct (Z.leb_spec 0 n); [|done].
  by destruct (Z.ltb_spec n 256); [|lia].
Qed.





(** ** The batch orchestrator *)

Section OrchestratorFacts.

Context {Store Session : Type}.
Variable client : Session -> list str -> Store -> result value * Store.
Variable session : Session.

(** A turn of the loop returns, with at most one reply appended: none for a
    command of no argument, one for every other command. *)
Lemma execute_command_appends (command : str) (rep : list Reply) (w : world Store) :
  exists new w',
    execute_command client session command rep w = (Some (Ok (rep ++ new)), w')
    /\ command_replies client session command w = (new, w')
    /\ (tokens command = Some (Ok []) -> new = [] /\ w' = w)
    /\ (tokens command <> Some (Ok []) -> exists r, new = [r]).
Proof.
  assert (Hshape : forall new w',
    (forall rep0, execute_command client session command rep0 w
                  = (Some (Ok (rep0 ++ new)), w')) ->
    (tokens command = Some (Ok []) -> new = [] /\ w' = w) ->
    (tokens command <> Some (Ok []) -> exists r, new = [r]) ->
    exists new w',
      execute_command client session command rep w = (Some (Ok (rep ++ new)), w')
      /\ command_replies client session command w = (new, w')
      /\ (tokens command = Some (Ok []) -> new = [] /\ w' = w)
      /\ (tokens command <> Some (Ok []) -> exists r, new = [r])).
  { intros new w' Hrun H0 H1. exists new, w'. split; [apply Hrun|].
    split; [|done]. unfold command_replies. by rewrite (Hrun []). }
  unfold execute_command in *.
  destruct (tokens_returns command) as [r Hr]. rewrite Hr in *.
  destruct r as [raw|e].
  - destruct (Z.eqb_spec (Z.of_nat (length raw)) 0) as [Hz|Hnz].
    { destruct raw; [|simpl in Hz; lia].
      apply (Hshape [] w); [intros; by rewrite app_nil_r|done|done]. }
    assert (Hne : Some (Ok raw) = Some (Ok []) -> False).
    { intros [= ->]. by apply Hnz. }
    destruct (_ >? max_arguments).
    { eapply Hshape; [done|done|eauto]. }
    destruct (sanitize_arguments raw) as [argv|] eqn:Hargs.
    2: { eapply Hshape; [done|done|eauto]. }
    apply sanitize_arguments_length in Hargs.
    destruct argv as [|a0 rest]; [simpl in Hargs; lia|].
    destruct (sanitize_exceptions_frame a0 rest) as (argv' & r & Hpol & _).
    rewrite Hpol in *.
    destruct r as [error|].
    { eapply Hshape; [done|done|eauto]. }
    destruct (dispatch client session argv' w) as [[resp|e] w'].
    + eapply Hshape; [done|done|eauto].
    + eapply Hshape; [done|done|eauto].
  - destruct (tokens_raises _ _ Hr) as [m ->].
    eapply Hshape; [done|done|eauto].
Qed.

(** The loop of [execute_commands] returns the replies of its commands, in
    order, after those it started with. *)
Lemma execute_loop_replies (commands : list str) (rep : list Reply) (w : world Store) :
  exists w',
    execute_loop client session commands rep w
    = (Some (Ok (rep ++ concat (batch_replies client session commands w))), w').
Proof.
  revert rep w. induction commands as [|command commands IH]; intros rep w; simpl.
  - rewrite app_nil_r. eauto.
  - destruct (execute_command_appends command rep w) as (new & w' & -> & -> & _).
    destruct (IH (rep ++ new) w') as [w'' ->]. rewrite <- app_assoc. eauto.
Qed.

Lemma batch_replies_shape (commands : list str) (w : world Store) :
  Forall2 (fun command new =>
             (tokens command = Some (Ok []) -> new = [])
             /\ (tokens command <> Some (Ok []) -> exists r, new = [r]))
          commands (batch_replies client session commands w).
Proof.
  revert w. induction commands as [|command commands IH]; intros w; simpl; [constructor|].
  destruct (execute_command_appends command [] w) as (new & w' & _ & -> & H0 & H1).
  constructor; [|apply IH]. split; [apply H0|apply H1].
Qed.

(** What a command went through when its turn dispatched [argv']. *)
Lemma execute_command_dispatched (command : str) (raw : list (option str))
    (rep : list Reply) (w : world Store) (argv' : list str) :
  tokens command = Some (Ok raw) ->
  calls (execute_command client session command rep w).2 = calls w ++ [argv'] ->
  exists argv,
    sanitize_arguments raw = Some argv
    /\ sanitize_exceptions argv = Ok (argv', None)
    /\ execute_command client session command rep w
       = match dispatch client session argv' w with
         | (Ok resp, w') =>
             (Some (Ok (rep ++ [reply (if is_info argv' then resp
                                       else escape_strings resp) false])), w')
         | (Raise e, w') => (Some (Ok (rep ++ [reply (VStr (exn_str e)) true])), w')
         end.
Proof.
  intros Htok. unfold execute_command. rewrite Htok.
  assert (Hsame : calls w = calls w ++ [argv'] -> False).
  { intros H%(f_equal length). rewrite length_app in H. simpl in H. lia. }
  destruct (_ =? 0); [simpl; intros []%Hsame|].
  destruct (_ >? max_arguments); [simpl; intros []%Hsame|].
  destruct (sanitize_arguments raw) as [argv|]; [|simpl; intros []%Hsame].
  destruct (sanitize_exceptions argv) as [[argv2 [error|]]|e] eqn:Hpol;
    try (simpl; intros []%Hsame).
  unfold dispatch.
  destruct (client session argv2 (store w)) as [[resp|e] s'] eqn:Hcall; simpl;
    intros [= <-]%app_inv_head; exists argv; rewrite Hcall; done.
Qed.

(** The loop on a reply list that is not empty: the same replies are added,
    and the same world is left, as on the empty list. *)
Lemma execute_loop_frame (commands : list str) (rep : list Reply) (w : world Store) :
  exists new w',
    execute_loop client session commands rep w = (Some (Ok (rep ++ new)), w')
    /\ execute_loop client session commands [] w = (Some (Ok new), w').
Proof.
  revert rep w. induction commands as [|command commands IH]; intros rep w.
  { exists [], w. by rewrite app_nil_r. }
  cbn [execute_loop].
  destruct (execute_command_appends command rep w)
    as (new1 & w1 & -> & Hreplies & _).
  destruct (execute_command_appends command [] w)
    as (new1' & w1' & -> & Hreplies' & _).
  rewrite Hreplies in Hreplies'. injection Hreplies' as <- <-.
  destruct (IH (rep ++ new1) w1) as (new2 & w2 & -> & Hrun).
  destruct (IH ([] ++ new1) w1) as (new2' & w2' & -> & Hrun').
  rewrite Hrun in Hrun'. injection Hrun' as <- <-.
  exists (new1 ++ new2), w2. by rewrite <- app_assoc.
Qed.

Lemma execute_loop_app (first second : list str) (rep rep1 : list Reply)
    (w w1 : world Store) :
  execute_loop client session first rep w = (Some (Ok rep1), w1) ->
  execute_loop client session (first ++ second) rep w
  = execute_loop client session second rep1 w1.
Proof.
  revert rep w. induction first as [|command first IH]; intros rep w; cbn [execute_loop app].
  - by intros [= <- <-].
  - destruct (execute_command client session command rep w) as [[[rep'|e]|] w']; try done.
    apply IH.
Qed.

End OrchestratorFacts.

(** ** C2: a batch of strings never raises *)

(** C2.  On every batch of strings [execute_commands] returns a reply list:
    it neither raises nor fails to return.  Wherever a command stands in the
    batch, the reply list is made of the replies of the commands before it,
    the replies of the command itself and the replies of the commands after
    it, run on the world the command left.  A command line with malformed
    quoting, one with more than 25 arguments, one the policy engine rejects
    and one on which the store client raises each have exactly one reply, the
    error or denial of that failure; the first three leave the world as it
    was, the last leaves the world the client left. *)
Theorem C2_batch_never_raises {Store Session : Type}
    (client : Session -> list str -> Store -> result value * Store)
    (session : Session) (commands : list str) (w : world Store) :
  exists rep w',
    execute_commands client session commands w = (Some (Ok rep), w')
    /\ forall (before after : list str) (command : str),
         commands = before ++ command :: after ->
         exists rep1 w1 new w2 rep2,
           execute_commands client session before w = (Some (Ok rep1), w1)
           /\ execute_commands client session [command] w1 = (Some (Ok new), w2)
           /\ execute_commands client session after w2 = (Some (Ok rep2), w')
           /\ rep = rep1 ++ new ++ rep2
           /\ (forall e, tokens command = Some (Raise e) ->
                 new = [reply (VStr (exn_str e)) true] /\ w2 = w1)
           /\ (forall raw, tokens command = Some (Ok raw) -> (25 < length raw)%nat ->
                 new = [deny (lit "too many arguments - only up to 25")] /\ w2 = w1)
           /\ (forall raw argv argv' error,
                 tokens command = Some (Ok raw) -> (0 < length raw <= 25)%nat ->
                 sanitize_arguments raw = Some argv ->
                 sanitize_exceptions argv = Ok (argv', Some error) ->
                 new = [deny error] /\ w2 = w1)
           /\ (forall raw argv argv' e w1',
                 tokens command = Some (Ok raw) -> (0 < length raw <= 25)%nat ->
                 sanitize_arguments raw = Some argv ->
                 sanitize_exceptions argv = Ok (argv', None) ->
                 dispatch client session argv' w1 = (Raise e, w1') ->
                 new = [reply (VStr (exn_str e)) true] /\ w2 = w1').
Proof.
  unfold execute_commands.
  destruct (execute_loop_frame client session commands [] w) as (rep & w' & Hrun & _).
  exists rep, w'. split; [exact Hrun|].
  intros before after command ->.
  destruct (execute_loop_frame client session before [] w) as (rep1 & w1 & Hbefore & _).
  cbn [app] in Hbefore.
  destruct (execute_loop_frame client session [command] rep1 w1)
    as (new & w2 & Hcommand & Hcommand0).
  destruct (execute_loop_frame client session after (rep1 ++ new) w2)
    as (rep2 & w3 & Hafter & Hafter0).
  rewrite (execute_loop_app client session before (command :: after) [] _ w w1 Hbefore)
    in Hrun.
  change (command :: after) with ([command] ++ after) in Hrun.
  rewrite (execute_loop_app client session [command] after _ _ w1 w2 Hcommand) in Hrun.
  rewrite Hafter in Hrun. injection Hrun as <- <-.
  exists rep1, w1, new, w2, rep2.
  split; [exact Hbefore|]. split; [exact Hcommand0|]. split; [exact Hafter0|].
  split; [by rewrite <- app_assoc|].
  assert (Hsmall : forall raw : list (option str), (0 < length raw <= 25)%nat ->
            (Z.of_nat (length raw) =? 0) = false
            /\ (Z.of_nat (length raw) >? max_arguments) = false).
  { intros raw Hlen. unfold max_arguments. split; [lia|].
    destruct (Z.gtb_spec (Z.of_nat (length raw)) 25); [lia|done]. }
  cbn [execute_loop] in Hcommand0. unfold execute_command in Hcommand0.
  split; [|split; [|split]].
  - intros e Htok. destruct (tokens_raises _ _ Htok) as [m ->].
    rewrite Htok in Hcommand0. by injection Hcommand0 as <- <-.
  - intros raw Htok Hlen. rewrite Htok in Hcommand0.
    destruct (Z.eqb_spec (Z.of_nat (length raw)) 0); [lia|].
    unfold max_arguments in Hcommand0.
    destruct (Z.gtb_spec (Z.of_nat (length raw)) 25); [|lia].
    by injection Hcommand0 as <- <-.
  - intros raw argv argv' error Htok [Hz Hm]%Hsmall Hargs Hpol.
    rewrite Htok, Hz, Hm, Hargs, Hpol in Hcommand0.
    by injection Hcommand0 as <- <-.
  - intros raw argv argv' e w1' Htok [Hz Hm]%Hsmall Hargs Hpol Hcall.
    rewrite Htok, Hz, Hm, Hargs, Hpol, Hcall in Hcommand0.
    by injection Hcommand0 as <- <-.
Qed.

Lemma C2_batch_never_raises_witness :
  exists rep w',
    execute_commands (TestClient.failing (lit "connection lost")) tt
      [lit "GET 'k"; lit "GET k"; lit "quit"] TestClient.fresh
    = (Some (Ok rep), w')
    /\ exists rep1 rep2,
         rep = rep1 ++ [reply (VStr (lit "connection lost")) true] ++ rep2.
Proof.
  destruct (C2_batch_never_raises (TestClient.failing (lit "connection lost")) tt
              [lit "GET 'k"; lit "GET k"; lit "quit"] TestClient.fresh)
    as (rep & w' & Hrun & Hsplit).
  exists rep, w'. split; [exact Hrun|].
  destruct (Hsplit [lit "GET 'k"] [lit "quit"] (lit "GET k") eq_refl)
    as (rep1 & w1 & new & w2 & rep2 & Hbefore & _ & _ & -> & _ & _ & _ & Hraises).
  exists rep1, rep2.
  vm_compute in Hbefore. injection Hbefore as _ <-.
  destruct (Hraises [Some (lit "GET"); Some (lit "k")] [lit "GET"; lit "k"]
              [lit "GET"; lit "k"] (OtherError (lit "connection lost"))
              {| store := 1%nat; calls := [[lit "GET"; lit "k"]] |})
    as [-> _]; [reflexivity|simpl; lia|reflexivity|reflexivity|reflexivity|reflexivity].
Defined.

(** ** C9: one reply for each command that is not blank *)

Lemma yields_reply_false (command : str) :
  yields_reply command = false <-> tokens command = Some (Ok []).
Proof.
  unfold yields_reply. destruct (tokens command) as [[[|? ?]|?]|]; split; done.
Qed.

Lemma yields_reply_true (command : str) :
  yields_reply command = true <->
  (exists raw, tokens command = Some (Ok raw) /\ raw <> [])
  \/ (exists e, tokens command = Some (Raise e)).
Proof.
  unfold yields_reply. destruct (tokens_returns command) as [r ->].
  destruct r as [[|t raw]|e]; split; try done; eauto.
  intros [(raw & [= <-] & H)|(e & [=])]. done.
Qed.

(** C9.  A command line of white space only (or empty) tokenizes to no
    argument.  The reply list of a batch is the concatenation, in the order of
    the batch, of what each command adds: nothing for a command that tokenizes
    to no argument, exactly one Reply for a command that tokenizes to at least
    one argument or fails to parse.  So the replies are as many as those
    commands. *)
Theorem C9_one_reply_per_command {Store Session : Type}
    (client : Session -> list str -> Store -> result value * Store)
    (session : Session) (commands : list str) (w : world Store) :
  (forall command, Forall (fun c => char_in c Shlex.whitespace = true) command ->
     tokens command = Some (Ok []))
  /\ (forall command,
        (yields_reply command = false <-> tokens command = Some (Ok []))
        /\ (yields_reply command = true <->
            (exists raw, tokens command = Some (Ok raw) /\ raw <> [])
            \/ (exists e, tokens command = Some (Raise e))))
  /\ (exists w',
        execute_commands client session commands w
        = (Some (Ok (concat (batch_replies client session commands w))), w'))
  /\ Forall2 (fun command new =>
                if yields_reply command then exists r, new = [r] else new = [])
       commands (batch_replies client session commands w)
  /\ length (concat (batch_replies client session commands w))
     = length (List.filter yields_reply commands).
Proof.
  assert (Hshape : Forall2 (fun command new =>
                              if yields_reply command then exists r, new = [r] else new = [])
                     commands (batch_replies client session commands w)).
  { eapply Forall2_impl; [apply batch_replies_shape|].
    intros command new [H0 H1]. cbv beta.
    destruct (yields_reply command) eqn:Hy.
    - apply H1. intros Hblank%yields_reply_false. congruence.
    - by apply H0, yields_reply_false. }
  split; [apply tokens_blank|].
  split; [intros command; split; [apply yields_reply_false|apply yields_reply_true]|].
  split; [apply (execute_loop_replies client session commands [] w)|].
  split; [done|].
  induction Hshape as [|command new commands news Hnew _ IH]; [done|].
  simpl. rewrite length_app, IH.
  destruct (yields_reply command); [destruct Hnew as [r ->]|subst new]; done.
Qed.

Lemma C9_one_reply_per_command_witness :
  exists w',
    execute_commands (TestClient.constant (VOther 0)) tt
      [lit "GET missing"; lit ""; lit "   "; lit "GET 'k"] TestClient.fresh
    = (Some (Ok (concat (batch_replies (TestClient.constant (VOther 0)) tt
                           [lit "GET missing"; lit ""; lit "   "; lit "GET 'k"]
                           TestClient.fresh))), w').
Proof.
  exact (proj1 (proj2 (proj2 (C9_one_reply_per_command (TestClient.constant (VOther 0)) tt
                  [lit "GET missing"; lit ""; lit "   "; lit "GET 'k"]
                  TestClient.fresh)))).
Defined.

(** ** C8: the responses that are not escaped *)

Lemma is_info_spec (argv : list str) : is_info argv = true <-> info_command argv.
Proof.
  unfold is_info, info_command. destruct argv as [|a0 rest].
  { split; [done|]. by intros (a0 & [=] & _). }
  cbn [lookup list_lookup].
  rewrite orb_true_iff, !andb_true_iff, !str_eqb_eq. split.
  - intros [Hinfo|[[_ Hclient] Hsecond]]; exists a0; split; auto.
    destruct rest as [|a1 rest]; [done|]. apply str_eqb_eq in Hsecond. eauto 6.
  - intros (a & [= <-] & [Hinfo|(Hclient & a1 & Hsecond & Hlower)]); [by left|].
    right. destruct rest as [|a1' rest]; [done|]. injection Hsecond as ->.
    repeat split; [|done|by apply str_eqb_eq].
    apply Z.gtb_lt. simpl length. lia.
Qed.

(** C8 as stated fails on [client info x]: this command has three arguments
    and its name is not [INFO], yet its response comes back as the store
    client gave it, although escaping would change it. *)
Lemma C8_client_info_counterexample :
  tokens (lit "client info x")
  = Some (Ok [Some (lit "client"); Some (lit "info"); Some (lit "x")])
  /\ length [lit "client"; lit "info"; lit "x"] <> 2%nat
  /\ lower (lit "client") <> lit "info"
  /\ execute_command (TestClient.constant (VStr (lit "a\b"))) tt (lit "client info x") []
       TestClient.fresh
     = (Some (Ok [reply (VStr (lit "a\b")) false]),
        {| store := 1%nat; calls := [[lit "client"; lit "info"; lit "x"]] |})
  /\ escape_strings (VStr (lit "a\b")) <> VStr (lit "a\b").
Proof.
  split; [reflexivity|]. split; [simpl; lia|]. split; [discriminate|].
  split; [reflexivity|discriminate].
Qed.

(** C8, amended.  When the store client answers a dispatched command, the
    reply carries the response as it is when the command is [INFO], or
    [CLIENT] with [INFO] as its second argument and any number of arguments
    after it; the reply of every other command carries the escaped response.
    Both are replies without error. *)
Theorem C8_info_responses_verbatim {Store Session : Type}
    (client : Session -> list str -> Store -> result value * Store)
    (session : Session) (command : str) (raw : list (option str))
    (argv argv' : list str) (rep : list Reply) (w w' : world Store) (resp : value) :
  tokens command = Some (Ok raw) ->
  (0 < length raw <= 25)%nat ->
  sanitize_arguments raw = Some argv ->
  sanitize_exceptions argv = Ok (argv', None) ->
  dispatch client session argv' w = (Ok resp, w') ->
  (info_command argv' ->
     execute_command client session command rep w
     = (Some (Ok (rep ++ [reply resp false])), w'))
  /\ (~ info_command argv' ->
        execute_command client session command rep w
        = (Some (Ok (rep ++ [reply (escape_strings resp) false])), w')).
Proof.
  intros Htok Hlen Hargs Hpol Hcall.
  assert (Hrun : execute_command client session command rep w
    = (Some (Ok (rep ++ [reply (if is_info argv' then resp else escape_strings resp)
                           false])), w')).
  { unfold execute_command. rewrite Htok.
    destruct (Z.eqb_spec (Z.of_nat (length raw)) 0); [lia|].
    unfold max_arguments. destruct (Z.gtb_spec (Z.of_nat (length raw)) 25); [lia|].
    by rewrite Hargs, Hpol, Hcall. }
  rewrite Hrun. split.
  - intros Hinfo%is_info_spec. by rewrite Hinfo.
  - intros Hother. destruct (is_info argv') eqn:Hinfo; [|done].
    by apply is_info_spec in Hinfo.
Qed.

Lemma C8_info_responses_verbatim_witness :
  execute_command (TestClient.constant (VStr (lit "a\b"))) tt (lit "client info x") []
    TestClient.fresh
  = (Some (Ok ([] ++ [reply (VStr (lit "a\b")) false])),
     {| store := 1%nat; calls := [[lit "client"; lit "info"; lit "x"]] |})
  /\ execute_command (TestClient.constant (VStr (lit "a\b"))) tt (lit "GET k") []
       TestClient.fresh
     = (Some (Ok ([] ++ [reply (escape_strings (VStr (lit "a\b"))) false])),
        {| store := 1%nat; calls := [[lit "GET"; lit "k"]] |}).
Proof.
  split.
  - apply (proj1 (C8_info_responses_verbatim (TestClient.constant (VStr (lit "a\b"))) tt
                    (lit "client info x")
                    [Some (lit "client"); Some (lit "info"); Some (lit "x")]
                    [lit "client"; lit "info"; lit "x"] [lit "client"; lit "info"; lit "x"]
                    [] TestClient.fresh _ (VStr (lit "a\b"))
                    eq_refl ltac:(simpl; lia) eq_refl eq_refl eq_refl)).
    exists (lit "client"). split; [reflexivity|]. right. split; [reflexivity|].
    exists (lit "info"). split; reflexivity.
  - apply (proj2 (C8_info_responses_verbatim (TestClient.constant (VStr (lit "a\b"))) tt
                    (lit "GET k") [Some (lit "GET"); Some (lit "k")]
                    [lit "GET"; lit "k"] [lit "GET"; lit "k"]
                    [] TestClient.fresh _ (VStr (lit "a\b"))
                    eq_refl ltac:(simpl; lia) eq_refl eq_refl eq_refl)).
    intros (a0 & [= <-] & [H|(H & _)]); discriminate H.
Defined.

(** ** C4: arguments longer than 256 characters *)

Lemma signature_length : length signature = 41%nat.
Proof. reflexivity. Qed.

(** A decoded argument of more than 256 characters is snipped to 256. *)
Lemma sanitize_argument_long (a : str) :
  (256 < length (unescape_argument a))%nat ->
  sanitize_argument a = take 215 (unescape_argument a) ++ signature
  /\ length (sanitize_argument a) = 256%nat.
Proof.
  intros Hlong. unfold sanitize_argument, max_argument_size, snip.
  destruct (Z.gtb_spec (Z.of_nat (length (unescape_argument a))) 256); [|lia].
  rewrite signature_length. unfold max_argument_size.
  rewrite slice_to_take by lia. change (Z.to_nat (256 - 0 - Z.of_nat 41)) with 215%nat.
  split; [done|]. rewrite length_app, length_take, signature_length. lia.
Qed.

(** C4 as stated fails on the store's side: the value of
    [SETRANGE k 100 aaa...] with 300 [a] decodes to 300 characters, and the
    store client is sent its first 157 characters, an argument of another
    length than 256 and without the marker. *)
Lemma C4_setrange_value_counterexample :
  tokens (lit "SETRANGE k 100 " ++ repeat "a"%char 300)
  = Some (Ok [Some (lit "SETRANGE"); Some (lit "k"); Some (lit "100");
              Some (repeat "a"%char 300)])
  /\ length (unescape_argument (repeat "a"%char 300)) = 300%nat
  /\ calls (execute_command (TestClient.constant (VOther 0)) tt
              (lit "SETRANGE k 100 " ++ repeat "a"%char 300) [] TestClient.fresh).2
     = [[lit "SETRANGE"; lit "k"; lit "100"; repeat "a"%char 157]]
  /\ length (repeat "a"%char 157) <> 256%nat.
Proof.
  split; [vm_compute; reflexivity|]. split; [vm_compute; reflexivity|].
  split; [vm_compute; reflexivity|]. rewrite repeat_length. lia.
Qed.

(** C4, amended.  An argument whose decoded length exceeds 256 characters
    reaches the policy engine with exactly 256 characters, the marker last.
    When the command is dispatched, the store client receives the same value,
    unless the argument is the value (the fourth argument) of a [SETRANGE] of
    four arguments. *)
Theorem C4_long_arguments_snipped {Store Session : Type}
    (client : Session -> list str -> Store -> result value * Store)
    (session : Session) (command : str) (raw : list (option str))
    (i : nat) (a : str) (rep : list Reply) (w : world Store) :
  tokens command = Some (Ok raw) ->
  raw !! i = Some (Some a) ->
  (256 < length (unescape_argument a))%nat ->
  length (sanitize_argument a) = 256%nat
  /\ (exists prefix, sanitize_argument a = prefix ++ signature)
  /\ (forall argv, sanitize_arguments raw = Some argv ->
        argv !! i = Some (sanitize_argument a))
  /\ (forall argv',
        calls (execute_command client session command rep w).2 = calls w ++ [argv'] ->
        argv' !! i = Some (sanitize_argument a)
        \/ (i = 3%nat /\ length argv' = 4%nat
            /\ exists a0, argv' !! 0%nat = Some a0 /\ lower a0 = lit "setrange")).
Proof.
  intros Htok Hi Hlong.
  destruct (sanitize_argument_long a Hlong) as [Hsnip Hlen].
  split; [done|]. split; [eauto|].
  split; [intros argv Hargs; by eapply sanitize_arguments_lookup|].
  intros argv' Hcalls.
  destruct (execute_command_dispatched client session command raw rep w argv' Htok Hcalls)
    as (argv & Hargs & Hpol & _).
  pose proof (sanitize_arguments_lookup _ _ _ _ Hargs Hi) as Hargv.
  destruct argv as [|a0 rest]; [done|].
  destruct (sanitize_exceptions_frame a0 rest) as (argv2 & r & Hpol' & Hframe).
  rewrite Hpol in Hpol'. injection Hpol' as <- <-.
  destruct Hframe as [->|(Hname & Hfour & v & ->)]; [by left|].
  destruct (decide (i = 3%nat)) as [->|Hne].
  - right. rewrite length_insert. eauto.
  - left. by rewrite list_lookup_insert_ne.
Qed.

Lemma C4_long_arguments_snipped_witness :
  length (sanitize_argument (repeat "a"%char 300)) = 256%nat
  /\ (exists prefix, sanitize_argument (repeat "a"%char 300) = prefix ++ signature)
  /\ calls (execute_command (TestClient.constant (VOther 0)) tt
              (lit "SET k " ++ repeat "a"%char 300) [] TestClient.fresh).2
     = [[lit "SET"; lit "k"; sanitize_argument (repeat "a"%char 300)]].
Proof.
  pose proof (C4_long_arguments_snipped (TestClient.constant (VOther 0)) tt
                (lit "SET k " ++ repeat "a"%char 300)
                [Some (lit "SET"); Some (lit "k"); Some (repeat "a"%char 300)]
                2 (repeat "a"%char 300) [] TestClient.fresh) as H.
  destruct H as (Hlen & Hmark & _).
  - vm_compute. reflexivity.
  - reflexivity.
  - vm_compute. lia.
  - split; [exact Hlen|]. split; [exact Hmark|]. vm_compute. reflexivity.
Defined.

(** * Further properties of the pipeline *)

(** ** The policy engine, beyond SETRANGE *)

(** A [SETBIT] of exactly four arguments: an offset that parses as an integer
    above [256 * 8] is rejected with the bounds message; any other offset, a
    text that does not parse included, passes with the arguments untouched. *)
Theorem setbit_policy (a0 a1 a2 a3 : str) :
  lower a0 = lit "setbit" ->
  (forall offset, parse_int 10 a2 = Some offset -> 2048 < offset ->
     sanitize_exceptions [a0; a1; a2; a3]
     = Ok ([a0; a1; a2; a3],
           Some (lit "offset too big - only up to 2048 bits allowed")))
  /\ (forall offset, parse_int 10 a2 = Some offset -> offset <= 2048 ->
        sanitize_exceptions [a0; a1; a2; a3] = Ok ([a0; a1; a2; a3], None))
  /\ (parse_int 10 a2 = None ->
        sanitize_exceptions [a0; a1; a2; a3] = Ok ([a0; a1; a2; a3], None)).
Proof.
  intros Hname.
  assert (Hunfold : sanitize_exceptions [a0; a1; a2; a3]
    = try_except_ValueError
        (offset <- int 10 a2 ;;
         if offset >? max_argument_size * 8 then
           Ok ([a0; a1; a2; a3],
               Some (lit "offset too big - only up to "
                     ++ str_of_int (max_argument_size * 8) ++ lit " bits allowed"))
         else Ok ([a0; a1; a2; a3], None))
        (fun _ => Ok ([a0; a1; a2; a3], None))).
  { unfold sanitize_exceptions. cbn [getitem lookup list_lookup bind].
    rewrite Hname. reflexivity. }
  rewrite Hunfold. unfold int, max_argument_size. change (256 * 8) with 2048.
  split; [|split].
  - intros offset -> Hbig. cbn [bind try_except_ValueError].
    destruct (Z.gtb_spec offset 2048); [reflexivity|lia].
  - intros offset -> Hsmall. cbn [bind try_except_ValueError].
    destruct (Z.gtb_spec offset 2048); [lia|reflexivity].
  - by intros ->.
Qed.

Lemma setbit_policy_witness :
  sanitize_exceptions [lit "SETBIT"; lit "k"; lit "2049"; lit "1"]
  = Ok ([lit "SETBIT"; lit "k"; lit "2049"; lit "1"],
        Some (lit "offset too big - only up to 2048 bits allowed"))
  /\ sanitize_exceptions [lit "SETBIT"; lit "k"; lit "2048"; lit "1"]
     = Ok ([lit "SETBIT"; lit "k"; lit "2048"; lit "1"], None)
  /\ sanitize_exceptions [lit "SETBIT"; lit "k"; lit "last"; lit "1"]
     = Ok ([lit "SETBIT"; lit "k"; lit "last"; lit "1"], None).
Proof.
  split; [|split].
  - apply (proj1 (setbit_policy (lit "SETBIT") (lit "k") (lit "2049") (lit "1") eq_refl)
             2049); [reflexivity|lia].
  - apply (proj1 (proj2 (setbit_policy (lit "SETBIT") (lit "k") (lit "2048") (lit "1")
                           eq_refl)) 2048); [reflexivity|lia].
  - apply (proj2 (proj2 (setbit_policy (lit "SETBIT") (lit "k") (lit "last") (lit "1")
                           eq_refl))); reflexivity.
Defined.

Lemma existsb_str_eqb (name : str) (names : list str) :
  existsb (str_eqb name) names = true <-> In name names.
Proof.
  rewrite existsb_exists. split.
  - intros (x & Hx & ->%str_eqb_eq). done.
  - intros Hin. exists name. by rewrite str_eqb_refl.
Qed.

(** The policy engine rejects a command in three cases and no other: its name
    is one of the four session commands; it is a [SETBIT] of four arguments
    whose offset is an integer above 2048; it is a [SETRANGE] of four
    arguments whose offset is an integer above 256.  In particular a
    [SETBIT] or [SETRANGE] with another number of arguments is never
    rejected, whatever its offset. *)
Theorem policy_rejects_iff (a0 : str) (rest : list str) :
  (exists argv' message, sanitize_exceptions (a0 :: rest) = Ok (argv', Some message))
  <-> In (lower a0) [lit "quit"; lit "hello"; lit "reset"; lit "auth"]
      \/ exists a1 a2 a3 offset,
           rest = [a1; a2; a3] /\ parse_int 10 a2 = Some offset
           /\ ((lower a0 = lit "setbit" /\ 2048 < offset)
               \/ (lower a0 = lit "setrange" /\ 256 < offset)).
Proof.
  unfold sanitize_exceptions. cbn [getitem lookup list_lookup bind].
  destruct (str_eqb (lower a0) (lit "setbit")) eqn:Hbit.
  { apply str_eqb_eq in Hbit. rewrite Hbit. cbn [andb].
    destruct (Z.eqb_spec (Z.of_nat (length (a0 :: rest))) 4) as [Hlen|Hlen].
    - destruct rest as [|a1 [|a2 [|a3 [|? ?]]]]; simpl in Hlen; try lia.
      cbn [getitem lookup list_lookup bind]. unfold int, max_argument_size.
      change (256 * 8) with 2048.
      destruct (parse_int 10 a2) as [offset|] eqn:Hint;
        cbn [bind try_except_ValueError].
      + destruct (Z.gtb_spec offset 2048); split.
        * intros _. right. exists a1, a2, a3, offset. eauto.
        * eauto.
        * by intros (? & ? & [=]).
        * intros [Hin|(? & ? & ? & o & [= <- <- <-] & Ho & [[_ ?]|[[=] _]])].
          { simpl in Hin. by destruct Hin as [?|[?|[?|[?|[]]]]]. }
          rewrite Hint in Ho. injection Ho as <-. lia.
      + split; [by intros (? & ? & [=])|].
        intros [Hin|(? & ? & ? & o & [= <- <- <-] & Ho & _)]; [|congruence].
        simpl in Hin. by destruct Hin as [?|[?|[?|[?|[]]]]].
    - simpl. split; [by intros (? & ? & [=])|].
      intros [Hin|(? & ? & ? & o & -> & _)]; [|simpl in Hlen; lia].
      simpl in Hin. by destruct Hin as [?|[?|[?|[?|[]]]]]. }
  cbn [andb].
  destruct (str_eqb (lower a0) (lit "setrange")) eqn:Hrange.
  { apply str_eqb_eq in Hrange. rewrite Hrange. cbn [andb].
    destruct (Z.eqb_spec (Z.of_nat (length (a0 :: rest))) 4) as [Hlen|Hlen].
    - destruct rest as [|a1 [|a2 [|a3 [|? ?]]]]; simpl in Hlen; try lia.
      cbn [getitem setitem lookup list_lookup bind]. unfold int, max_argument_size.
      destruct (parse_int 10 a2) as [offset|] eqn:Hint;
        cbn [bind try_except_ValueError].
      + destruct (Z.gtb_spec offset 256); split.
        * intros _. right. exists a1, a2, a3, offset. eauto.
        * eauto.
        * by intros (? & ? & [=]).
        * intros [Hin|(? & ? & ? & o & [= <- <- <-] & Ho & [[[=] _]|[_ ?]])].
          { simpl in Hin. by destruct Hin as [?|[?|[?|[?|[]]]]]. }
          rewrite Hint in Ho. injection Ho as <-. lia.
      + split; [by intros (? & ? & [=])|].
        intros [Hin|(? & ? & ? & o & [= <- <- <-] & Ho & _)]; [|congruence].
        simpl in Hin. by destruct Hin as [?|[?|[?|[?|[]]]]].
    - simpl. split; [by intros (? & ? & [=])|].
      intros [Hin|(? & ? & ? & o & -> & _)]; [|simpl in Hlen; lia].
      simpl in Hin. by destruct Hin as [?|[?|[?|[?|[]]]]]. }
  apply str_eqb_neq in Hbit, Hrange.
  destruct (existsb _ _) eqn:Hban.
  - apply existsb_str_eqb in Hban. split; [by left|eauto].
  - split; [by intros (? & ? & [=])|].
    intros [Hin%existsb_str_eqb|(? & ? & ? & o & _ & _ & [[? _]|[? _]])]; congruence.
Qed.

(** What the policy engine returns: the vector as it was, or a [SETRANGE] of
    four arguments with its value cut to a prefix and no verdict. *)
Lemma sanitize_exceptions_cut (a0 : str) (rest : list str) :
  exists argv' verdict,
    sanitize_exceptions (a0 :: rest) = Ok (argv', verdict)
    /\ (argv' = a0 :: rest
        \/ (verdict = None /\ lower a0 = lit "setrange"
            /\ exists a1 a2 a3 n, rest = [a1; a2; a3] /\ argv' = [a0; a1; a2; take n a3])).
Proof.
  unfold sanitize_exceptions. cbn [getitem lookup list_lookup bind].
  destruct (str_eqb (lower a0) (lit "setbit") && _) eqn:Hbit.
  { apply andb_true_iff in Hbit as [_ Hlen%Z.eqb_eq].
    destruct rest as [|a1 [|a2 [|a3 [|? ?]]]]; simpl in Hlen; try lia.
    cbn [getitem lookup list_lookup bind]. unfold int.
    destruct (parse_int 10 a2) as [offset|]; simpl; [|eauto].
    destruct (offset >? _); simpl; eauto. }
  destruct (str_eqb (lower a0) (lit "setrange") && _) eqn:Hrange.
  { apply andb_true_iff in Hrange as [Hname%str_eqb_eq Hlen%Z.eqb_eq].
    destruct rest as [|a1 [|a2 [|a3 [|? ?]]]]; simpl in Hlen; try lia.
    cbn [getitem setitem lookup list_lookup bind]. unfold int.
    destruct (parse_int 10 a2) as [offset|]; simpl.
    - unfold max_argument_size. destruct (Z.gtb_spec offset 256); [eauto|].
      rewrite slice_to_take by lia. simpl. eauto 12.
    - exists [a0; a1; a2; take 0 a3], None. eauto 12. }
  destruct (existsb _ _); eauto.
Qed.

(** The policy engine returns on every argument vector that has a command
    name, keeps the number of arguments, and leaves every argument as it was
    but the fourth, which it may only cut to a prefix.  It changes the vector
    only for a [SETRANGE] of four arguments that it does not reject. *)
Theorem policy_frame (a0 : str) (rest : list str) :
  exists argv' verdict,
    sanitize_exceptions (a0 :: rest) = Ok (argv', verdict)
    /\ length argv' = length (a0 :: rest)
    /\ (forall i, i <> 3%nat -> argv' !! i = (a0 :: rest) !! i)
    /\ (forall v', argv' !! 3%nat = Some v' ->
          exists v n, (a0 :: rest) !! 3%nat = Some v /\ v' = take n v)
    /\ (argv' <> a0 :: rest ->
          verdict = None /\ lower a0 = lit "setrange" /\ length (a0 :: rest) = 4%nat).
Proof.
  destruct (sanitize_exceptions_cut a0 rest) as (argv' & verdict & Hrun & Hcase).
  exists argv', verdict. split; [done|].
  destruct Hcase as [->|(-> & Hname & a1 & a2 & a3 & n & -> & ->)].
  - repeat split; try done.
    intros v' Hv. exists v', (length v'). by rewrite firstn_all.
  - repeat split; try done.
    + intros [|[|[|[|i]]]] Hi; done.
    + intros v' [= <-]. eauto.
Qed.

(** An argument vector without a command name makes the policy engine raise
    an [IndexError]; [execute_commands] never calls it on one. *)
Lemma sanitize_exceptions_empty :
  sanitize_exceptions [] = Raise (IndexError (lit "list index out of range")).
Proof. reflexivity. Qed.

(** ** Validating the batch *)

(** [verify_commands] accepts exactly the lists of at most 20 entries, with
    no regard for what the entries are; what is not a list is answered with
    the message and the status 400. *)
Theorem verify_commands_accepts_iff (commands : pyobj) :
  (verify_commands commands = None
   <-> exists l, commands = PyList l /\ (length l <= 20)%nat)
  /\ ((forall l, commands <> PyList l) ->
      verify_commands commands
      = Some (BadRequest (lit "It posts commands as a list") 400)).
Proof.
  unfold verify_commands, max_batch_size. split.
  - destruct commands as [s|l|].
    + split; [done|]. by intros (l & [=] & _).
    + destruct (Z.gtb_spec (Z.of_nat (length l)) 20); split; try done.
      * intros (l' & [= <-] & Hlen). lia.
      * intros _. exists l. split; [done|lia].
    + split; [done|]. by intros (l & [=] & _).
  - intros Hnot. destruct commands as [s|l|]; [done| |done]. by destruct (Hnot l).
Qed.

(** ** Decoding and escaping *)

Lemma two_ends {A} (l : list A) :
  (2 <= length l)%nat -> exists first body last, l = first :: body ++ [last].
Proof.
  intros Hlen. destruct l as [|first l]; [simpl in Hlen; lia|].
  destruct (exists_last (l := l)) as (body & last & ->).
  { intros ->. simpl in Hlen. lia. }
  eauto.
Qed.

Lemma unescape_argument_dquote (body : str) (last : ascii) :
  unescape_argument (dquote :: body ++ [last])
  = match unescape_loop body [] with
    | Some result => result
    | None => body
    end.
Proof.
  unfold unescape_argument. rewrite slice_interior.
  cbn [startswith]. unfold dquote at 1 2 3. simpl Ascii.eqb. cbn [orb negb].
  rewrite length_cons, length_app. simpl length.
  destruct (Z.ltb_spec (Z.of_nat (S (length body + 1))) 2); [lia|done].
Qed.

Lemma unescape_argument_squote (body : str) (last : ascii) :
  unescape_argument (squote :: body ++ [last]) = replace2 backslash squote squote body.
Proof.
  unfold unescape_argument. rewrite slice_interior.
  cbn [startswith]. unfold squote at 1 2 3, dquote. simpl Ascii.eqb. cbn [orb negb].
  rewrite length_cons, length_app. simpl length.
  destruct (Z.ltb_spec (Z.of_nat (S (length body + 1))) 2); [lia|done].
Qed.

(** The turns of the scan that are not at a hexadecimal escape. *)
Lemma unescape_loop_backslash (c1 : ascii) (tl1 result : str) :
  c1 <> "x"%char \/ (length tl1 < 2)%nat ->
  unescape_loop (backslash :: c1 :: tl1) result
  = unescape_loop tl1 (result ++ [dict_get escapes c1 c1]).
Proof.
  intros Hcase. cbn [unescape_loop]. rewrite Ascii.eqb_refl.
  destruct (Ascii.eqb_spec c1 "x") as [->|_]; [|done].
  destruct Hcase as [?|Hshort]; [done|].
  destruct tl1 as [|? [|? ?]]; simpl in Hshort; try done; lia.
Qed.

Lemma unescape_loop_char (c : ascii) (tl result : str) :
  c <> backslash -> unescape_loop (c :: tl) result = unescape_loop tl (result ++ [c]).
Proof.
  intros Hc. cbn [unescape_loop]. by destruct (Ascii.eqb_spec c backslash).
Qed.

(** The scan never yields more characters than it reads. *)
Lemma unescape_loop_length (rest result r : str) :
  unescape_loop rest result = Some r ->
  (length r <= length result + length rest)%nat.
Proof.
  remember (length rest) as n eqn:Hn.
  revert rest result r Hn. induction (lt_wf n) as [n _ IH].
  intros [|c tl] result r ->.
  { simpl. intros [= <-]. lia. }
  assert (Hstep : forall rest' result',
            (length rest' < length (c :: tl))%nat ->
            (length result' + length rest' <= length result + length (c :: tl))%nat ->
            unescape_loop rest' result' = Some r ->
            (length r <= length result + length (c :: tl))%nat).
  { intros rest' result' Hlt Hle Hr.
    apply (IH (length rest') Hlt rest' result' r eq_refl) in Hr. lia. }
  destruct (Ascii.eqb_spec c backslash) as [->|Hc].
  - destruct tl as [|c1 tl1]; [done|].
    assert (Hother : c1 <> "x"%char \/ (length tl1 < 2)%nat ->
              unescape_loop (backslash :: c1 :: tl1) result = Some r ->
              (length r <= length result + length (backslash :: c1 :: tl1))%nat).
    { intros Hcase. rewrite unescape_loop_backslash by done.
      apply Hstep; rewrite ?length_app; simpl; lia. }
    destruct (Ascii.eqb_spec c1 "x") as [->|?]; [|by apply Hother; left].
    destruct tl1 as [|h1 [|h2 tl3]]; [apply Hother; right; simpl; lia ..|].
    clear Hother. rewrite unescape_loop_hex.
    destruct (parse_int 16 [h1; h2]) as [k|]; [destruct (0 <=? k)|];
      apply Hstep; rewrite ?length_app; simpl; lia.
  - rewrite unescape_loop_char by done.
    apply Hstep; rewrite ?length_app; simpl; lia.
Qed.

Lemma replace2_length (o1 o2 new : ascii) (s : str) :
  (length (replace2 o1 o2 new s) <= length s)%nat.
Proof.
  remember (length s) as n eqn:Hn.
  revert s Hn. induction (lt_wf n) as [n _ IH]. intros [|c [|d s]] ->; simpl; [lia..|].
  destruct (_ && _); simpl.
  - specialize (IH (length s) ltac:(simpl; lia) s eq_refl). lia.
  - specialize (IH (length (d :: s)) ltac:(simpl; lia) (d :: s) eq_refl).
    simpl in *. lia.
Qed.

(** A token that does not begin with a quote, or has fewer than two
    characters, is returned as it is. *)
Lemma unescape_argument_unquoted (a : str) :
  startswith a dquote || startswith a squote = false \/ (length a < 2)%nat ->
  unescape_argument a = a.
Proof.
  intros Hcase. unfold unescape_argument.
  destruct (Z.ltb_spec (Z.of_nat (length a)) 2) as [?|Hlen]; [done|].
  destruct Hcase as [->|?]; [done|lia].
Qed.

(** Any other token loses at least its first and last character. *)
Lemma unescape_argument_quoted_length (a : str) :
  startswith a dquote || startswith a squote = true -> (2 <= length a)%nat ->
  (length (unescape_argument a) + 2 <= length a)%nat.
Proof.
  intros Hq Hlen. destruct (two_ends a Hlen) as (first & body & last & ->).
  rewrite length_cons, length_app. simpl length.
  apply orb_true_iff in Hq as [Hq|Hq]; simpl in Hq; apply Ascii.eqb_eq in Hq; subst first.
  - rewrite unescape_argument_dquote.
    destruct (unescape_loop body []) as [r|] eqn:Hr; [|lia].
    apply unescape_loop_length in Hr. simpl in Hr. lia.
  - rewrite unescape_argument_squote.
    pose proof (replace2_length backslash squote squote body). lia.
Qed.

Lemma unescape_argument_length (a : str) :
  (length (unescape_argument a) <= length a)%nat.
Proof.
  destruct (startswith a dquote || startswith a squote) eqn:Hq.
  - destruct (Nat.lt_ge_cases (length a) 2) as [Hshort|Hlong].
    + rewrite unescape_argument_unquoted; [lia|by right].
    + pose proof (unescape_argument_quoted_length a Hq Hlong). lia.
  - rewrite unescape_argument_unquoted; [lia|by left].
Qed.

(** Decoding never lengthens an argument: a token that begins with a quote
    and has two characters or more loses at least its first and last
    character, and every other token is returned as it is. *)
Theorem unescape_argument_never_longer (a : str) :
  (length (unescape_argument a) <= length a)%nat
  /\ (startswith a dquote || startswith a squote = true -> (2 <= length a)%nat ->
      (length (unescape_argument a) + 2 <= length a)%nat)
  /\ (startswith a dquote || startswith a squote = false \/ (length a < 2)%nat ->
      unescape_argument a = a).
Proof.
  split; [apply unescape_argument_length|].
  split; [apply unescape_argument_quoted_length|apply unescape_argument_unquoted].
Qed.

(** What the escaper writes for a character, the scan decodes back to it. *)
Lemma unescape_loop_escape_char (c : ascii) (rest result : str) :
  unescape_loop (escape_char c ++ rest) result = unescape_loop rest (result ++ [c]).
Proof.
  unfold escape_char.
  destruct (Ascii.eqb_spec c backslash) as [->|Hb]; [reflexivity|].
  destruct (Ascii.eqb_spec c dquote) as [->|Hq]; [reflexivity|].
  destruct (isprintable c) eqn:Hp; cbn [negb].
  - rewrite escape_char_unescapes by done. cbn [app].
    by rewrite unescape_loop_char.
  - unfold format_02x. cbn [app]. rewrite unescape_loop_hex.
    pose proof (forall_chars
      (fun c => match parse_int 16 (format_02x (ord c)) with
                | Some n => n =? ord c
                | None => false
                end)) as H.
    specialize (H ltac:(vm_compute; reflexivity) c). cbv beta in H.
    unfold format_02x in H.
    destruct (parse_int 16 _) as [n|]; [|done]. apply Z.eqb_eq in H. subst n.
    unfold ord. destruct (Z.leb_spec 0 (Z.of_N (N_of_ascii c))); [|lia].
    by rewrite N2Z.id, ascii_N_embedding.
Qed.

Lemma unescape_loop_escaped (s result : str) :
  unescape_loop (concat (map escape_char s)) result = Some (result ++ s).
Proof.
  revert result. induction s as [|c s IH]; intros result; simpl.
  - by rewrite app_nil_r.
  - rewrite unescape_loop_escape_char, IH. by rewrite <- app_assoc.
Qed.

(** Escaping does not shorten a string. *)
Lemma escaped_length (s : str) :
  (length s <= length (concat (map escape_char s)))%nat.
Proof.
  induction s as [|c s IH]; simpl; [lia|]. rewrite length_app.
  destruct (escape_char_length c). lia.
Qed.

(** A string is returned as it is exactly when each of its characters is
    printable and is neither a backslash nor a double quote; any other string
    comes back between double quotes. *)
Theorem escape_str_unchanged_iff (s : str) :
  (escape_str s = s <-> forallb plain_char s = true)
  /\ (escape_str s <> s ->
      escape_str s = dquote :: concat (map escape_char s) ++ [dquote]).
Proof.
  rewrite escape_str_spec. fold plain_char.
  change (fun c => isprintable c && negb (Ascii.eqb c backslash)
                   && negb (Ascii.eqb c dquote)) with plain_char.
  destruct (forallb plain_char s); split; try done.
  split; [|done]. intros Heq%(f_equal length).
  rewrite length_cons, length_app in Heq. pose proof (escaped_length s).
  simpl in Heq. lia.
Qed.

(** The escaper and the decoder of arguments are inverse to each other on
    every string but those of two characters or more that begin with a
    single quote and need no escape: such a string is returned unquoted by
    the escaper, and the decoder takes its first and last character off. *)
Theorem unescape_escape_round_trip (s : str) :
  unescape_argument (escape_str s) = s
  <-> ~ (startswith s squote = true /\ (2 <= length s)%nat /\ escape_str s = s).
Proof.
  split.
  - intros Hround (Hq & Hlen & Hsame). rewrite Hsame in Hround.
    pose proof (unescape_argument_quoted_length s) as Hshort.
    rewrite Hq, orb_true_r in Hshort. specialize (Hshort eq_refl Hlen).
    rewrite Hround in Hshort. lia.
  - intros Hnot. rewrite escape_str_spec.
    destruct (forallb _ s) eqn:Hplain.
    + apply unescape_argument_unquoted.
      destruct (startswith s squote) eqn:Hq.
      * right. destruct (Nat.lt_ge_cases (length s) 2) as [?|Hlen]; [done|].
        destruct Hnot. repeat split; [done|].
        by rewrite escape_str_spec, Hplain.
      * left. rewrite orb_false_r. destruct s as [|c s]; [done|]. simpl.
        simpl in Hplain. apply andb_true_iff in Hplain as [Hc _].
        apply andb_true_iff in Hc as [_ Hc]. by destruct (Ascii.eqb c dquote).
    + by rewrite unescape_argument_dquote, unescape_loop_escaped.
Qed.

(** Every character the escaper writes is printable. *)
Lemma escape_char_printable (c : ascii) :
  forallb isprintable (escape_char c) = true.
Proof.
  apply (forall_chars (fun c => forallb isprintable (escape_char c))).
  vm_compute. reflexivity.
Qed.

Lemma escape_str_printable (s : str) : Forall (fun c => isprintable c = true) (escape_str s).
Proof.
  rewrite escape_str_spec.
  destruct (forallb _ s) eqn:Hplain.
  - apply Forall_forall. intros c Hin. rewrite forallb_forall in Hplain.
    apply list_elem_of_In, Hplain in Hin.
    apply andb_true_iff in Hin as [Hin _]. by apply andb_true_iff in Hin as [Hin _].
  - constructor; [done|]. apply Forall_app. split; [|by constructor].
    clear Hplain. induction s as [|c s IH]; simpl; [constructor|].
    apply Forall_app. split; [|done].
    apply Forall_forall. intros x Hx%list_elem_of_In.
    pose proof (escape_char_printable c) as H. rewrite forallb_forall in H. auto.
Qed.

(** After [escape_strings], no string among the values of a response holds a
    character that is not printable, however the response nests lists and
    dicts. *)
Theorem escape_strings_printable (resp : value) :
  Forall (Forall (fun c => isprintable c = true)) (strings_of (escape_strings resp)).
Proof.
  revert resp. fix IH 1. intros [s|l|d|t]; simpl.
  - constructor; [apply escape_str_printable|constructor].
  - induction l as [|v l IHl]; simpl; [constructor|].
    apply Forall_app. split; [apply IH|apply IHl].
  - induction d as [|[k v] d IHd]; simpl; [constructor|].
    apply Forall_app. split; [apply IH|apply IHd].
  - constructor.
Qed.

(** ** The size of an argument *)

(** [snip] with an [init] between 0 and 215 returns a prefix of the value
    followed by the marker, of at most [256 - init] characters, and of exactly
    that many when the value has [215 - init] characters or more. *)
Theorem snip_fits (v : str) (init : Z) :
  0 <= init <= 215 ->
  snip v init = take (Z.to_nat (215 - init)) v ++ signature
  /\ Z.of_nat (length (snip v init)) <= 256 - init
  /\ (215 - init <= Z.of_nat (length v) -> Z.of_nat (length (snip v init)) = 256 - init).
Proof.
  intros Hinit. unfold snip, max_argument_size. rewrite signature_length.
  rewrite slice_to_take by lia.
  replace (256 - init - Z.of_nat 41) with (215 - init) by lia.
  split; [done|]. rewrite length_app, length_take, signature_length. lia.
Qed.

Lemma snip_fits_witness :
  snip (lit "0123456789") 210 = lit "01234" ++ signature
  /\ Z.of_nat (length (snip (lit "0123456789") 210)) <= 256 - 210
  /\ (215 - 210 <= Z.of_nat (length (lit "0123456789")) ->
      Z.of_nat (length (snip (lit "0123456789") 210)) = 256 - 210).
Proof.
  apply (snip_fits (lit "0123456789") 210). lia.
Defined.

Lemma sanitize_argument_short (a : str) :
  (length (unescape_argument a) <= 256)%nat -> sanitize_argument a = unescape_argument a.
Proof.
  intros Hshort. unfold sanitize_argument, max_argument_size.
  by destruct (Z.gtb_spec (Z.of_nat (length (unescape_argument a))) 256); [lia|].
Qed.

Lemma sanitize_argument_bound (a : str) : (length (sanitize_argument a) <= 256)%nat.
Proof.
  destruct (Nat.le_gt_cases (length (unescape_argument a)) 256) as [Hshort|Hlong].
  - by rewrite sanitize_argument_short.
  - destruct (sanitize_argument_long a Hlong) as [_ ->]. lia.
Qed.

(** Whatever the token, the argument made of it has at most 256 characters.
    A token of at most 256 characters is decoded and never snipped: a token
    is snipped only when what it decodes to is longer than 256, and then its
    first 215 decoded characters are kept before the marker. *)
Theorem sanitize_argument_fits (a : str) :
  (length (sanitize_argument a) <= 256)%nat
  /\ ((length a <= 256)%nat -> sanitize_argument a = unescape_argument a)
  /\ (sanitize_argument a <> unescape_argument a ->
      (256 < length (unescape_argument a))%nat
      /\ sanitize_argument a = take 215 (unescape_argument a) ++ signature).
Proof.
  split; [apply sanitize_argument_bound|]. split.
  - intros Hlen. apply sanitize_argument_short.
    pose proof (unescape_argument_length a). lia.
  - intros Hne.
    destruct (Nat.le_gt_cases (length (unescape_argument a)) 256) as [Hshort|Hlong].
    + by destruct Hne; apply sanitize_argument_short.
    + split; [done|]. by apply sanitize_argument_long.
Qed.

(** ** The tokens of a command line *)

Section LexerStates.
Import Shlex ShlexFacts.

Variable cfg : config.
Hypothesis not_posix : posix cfg = false.

Lemma emit_state (lx : lexer) (loc : locals) (P : lexer -> Prop) :
  P lx ->
  match emit cfg lx loc with
  | Continue lx' _ | Break lx' _ => P lx'
  | Raising _ => True
  end.
Proof.
  intros HP. pose proof (emit_pushback cfg lx loc) as H.
  destruct (emit cfg lx loc); by subst.
Qed.

(** Out of POSIX mode no turn of the loop enters an escape. *)
Lemma turn_char_no_escape (c : ascii) (lx : lexer) (loc : locals) :
  no_escape lx ->
  match (turn_char cfg c lx loc).2 with
  | Continue lx' _ | Break lx' _ => no_escape lx'
  | Raising _ => True
  end.
Proof using not_posix.
  destruct lx as [st tok pb]. unfold turn_char, no_escape. rewrite not_posix.
  cbn [state andb].
  destruct st as [[| |q|e]|]; try done; intros _;
    repeat match goal with
           | |- context [if ?b then _ else _] => destruct b
           end;
    cbn [snd set_state set_token push_left state token pushback];
    first [ done | by apply (emit_state _ _ no_escape) ].
Qed.

(** Nor a quoted run, on a character that is not a quote. *)
Lemma turn_char_no_quote (c : ascii) (lx : lexer) (loc : locals) :
  char_in c quotes = false -> no_quote lx ->
  match (turn_char cfg c lx loc).2 with
  | Continue lx' _ | Break lx' _ => no_quote lx'
  | Raising _ => True
  end.
Proof using not_posix.
  intros Hc. destruct lx as [st tok pb]. unfold turn_char, no_quote.
  rewrite not_posix, Hc. cbn [state andb orb].
  destruct st as [[| |q|e]|]; try done; intros _;
    repeat match goal with
           | |- context [if ?b then _ else _] => destruct b
           end;
    cbn [snd set_state set_token push_left state token pushback];
    first [ done | by apply (emit_state _ _ no_quote) ].
Qed.

Lemma readline_Forall (P : ascii -> Prop) (l : str) : Forall P l -> Forall P (readline l).
Proof.
  induction 1 as [|d l Hd Hl IH]; simpl; [constructor|]. by destruct (Ascii.eqb d _).
Qed.

(** The loop of [read_token] from a state that is not an escape: it raises
    nothing but the error of a quote left open, and leaves the loop in such a
    state. *)
Lemma read_loop_no_escape (input : str) (lx : lexer) (loc : locals) :
  no_escape lx ->
  match read_loop cfg input lx loc with
  | Ok (lx', _, _) => no_escape lx'
  | Raise e => e = ValueError (lit "No closing quotation")
  end.
Proof using not_posix.
  remember (length input) as n eqn:Hn.
  revert input lx loc Hn. induction (lt_wf n) as [n _ IH].
  intros [|c input] lx loc -> Hlx.
  - destruct lx as [st tok pb]. unfold read_loop, read_loop_eof, turn_eof, no_escape in *.
    cbn [state] in *. by destruct st as [[| |q|x]|].
  - rewrite read_loop_cons.
    pose proof (readline_length input) as Hrl.
    pose proof (turn_char_no_escape c lx loc Hlx) as Hturn.
    pose proof (turn_char_no_raise cfg c lx loc) as Hnr.
    destruct (turn_char cfg c lx loc) as [[|] [lx1 loc1|lx1 loc1|x]];
      simpl in Hturn, Hnr; try done; try (by destruct (Hnr x)).
    + apply (IH (length (readline input))); [simpl; lia|done|done].
    + apply (IH (length input)); [simpl; lia|done|done].
Qed.

(** On an input without quotes, from a state outside quotes, it does not
    raise at all. *)
Lemma read_loop_no_quote (input : str) (lx : lexer) (loc : locals) :
  Forall (fun c => char_in c quotes = false) input -> no_quote lx ->
  exists lx' loc' rest,
    read_loop cfg input lx loc = Ok (lx', loc', rest)
    /\ no_quote lx' /\ Forall (fun c => char_in c quotes = false) rest.
Proof using not_posix.
  remember (length input) as n eqn:Hn.
  revert input lx loc Hn. induction (lt_wf n) as [n _ IH].
  intros [|c input] lx loc -> Hin Hlx.
  - destruct lx as [st tok pb]. unfold read_loop, read_loop_eof, turn_eof, no_quote in *.
    cbn [state] in *. destruct st as [[| |q|x]|]; try done; eauto 6.
  - rewrite read_loop_cons. apply Forall_cons in Hin as [Hc Hin].
    pose proof (readline_length input) as Hrl.
    pose proof (readline_Forall _ _ Hin) as Hrest.
    pose proof (turn_char_no_quote c lx loc Hc Hlx) as Hturn.
    pose proof (turn_char_no_raise cfg c lx loc) as Hnr.
    destruct (turn_char cfg c lx loc) as [[|] [lx1 loc1|lx1 loc1|x]];
      simpl in Hturn, Hnr; try (by destruct (Hnr x)).
    + apply (IH (length (readline input))); [simpl; lia|done|done|done].
    + eauto 6.
    + apply (IH (length input)); [simpl; lia|done|done|done].
    + eauto 6.
Qed.

Lemma iter_get_token_error (fuel : nat) (lx : lexer) (input : str) e :
  no_escape lx ->
  iter_get_token fuel cfg lx input = Some (Raise e) ->
  e = ValueError (lit "No closing quotation").
Proof using not_posix.
  revert lx input. induction fuel as [|fuel IH]; intros lx input Hlx; [done|].
  simpl. unfold get_token.
  destruct (pushback lx) as [|tok pb].
  - unfold read_token.
    pose proof (read_loop_no_escape input lx
                  {| quoted := false; escapedstate := in_space |} Hlx) as Hloop.
    destruct (read_loop cfg input lx _) as [[[lx' loc'] rest]|x]; simpl.
    + rewrite not_posix. simpl.
      destruct (token lx') as [|t ts]; [done|].
      destruct (iter_get_token fuel _ _ _) as [[]|] eqn:Hi; try done.
      intros [= ->]. eapply IH; [|done]. done.
    + by intros [= <-].
  - destruct tok; [done|].
    destruct (iter_get_token fuel _ _ _) as [[]|] eqn:Hi; try done.
    intros [= ->]. eapply IH; [|done]. done.
Qed.

Lemma iter_get_token_no_quote (fuel : nat) (lx : lexer) (input : str) e :
  Forall (fun c => char_in c quotes = false) input -> no_quote lx ->
  iter_get_token fuel cfg lx input <> Some (Raise e).
Proof using not_posix.
  revert lx input. induction fuel as [|fuel IH]; intros lx input Hin Hlx; [done|].
  simpl. unfold get_token.
  destruct (pushback lx) as [|tok pb].
  - unfold read_token.
    destruct (read_loop_no_quote input lx
                {| quoted := false; escapedstate := in_space |} Hin Hlx)
      as (lx' & loc' & rest & -> & Hlx' & Hrest).
    simpl. rewrite not_posix. simpl.
    destruct (token lx') as [|t ts]; [done|].
    specialize (IH (set_token [] lx') rest Hrest Hlx').
    destruct (iter_get_token fuel _ _ _) as [[]|]; done.
  - destruct tok; [done|].
    specialize (IH {| state := state lx; token := token lx; pushback := pb |} input Hin Hlx).
    destruct (iter_get_token fuel _ _ _) as [[]|]; done.
Qed.

(** The tokens gathered are strings that are not empty: the empty string ends
    the iteration. *)
Lemma iter_get_token_nonempty (fuel : nat) (lx : lexer) (input : str)
    (toks : list (option str)) :
  iter_get_token fuel cfg lx input = Some (Ok toks) ->
  Forall (fun tok => exists s, tok = Some s /\ s <> []) toks.
Proof using not_posix.
  revert lx input toks. induction fuel as [|fuel IH]; intros lx input toks; [done|].
  simpl. unfold get_token.
  destruct (pushback lx) as [|tok pb].
  - unfold read_token.
    destruct (read_loop cfg input lx _) as [[[lx' loc'] rest]|x]; simpl; [|done].
    rewrite not_posix. simpl.
    destruct (token lx') as [|t ts]; [by intros [= <-]|].
    destruct (iter_get_token fuel _ _ _) as [[toks'|]|] eqn:Hi; try done.
    intros [= <-]. constructor; [by eexists|]. by eapply IH.
  - destruct tok; [by intros [= <-]|].
    destruct (iter_get_token fuel _ _ _) as [[toks'|]|] eqn:Hi; try done.
    intros [= <-]. constructor; [by eexists|]. by eapply IH.
Qed.

End LexerStates.

(** The only parse error of a command line is the one of a quote left open,
    and a command line without a quote character always tokenizes. *)
Theorem parse_error_is_open_quote (command : str) :
  (forall e, tokens command = Some (Raise e) ->
     e = ValueError (lit "No closing quotation"))
  /\ (Forall (fun c => char_in c Shlex.quotes = false) command ->
      exists raw, tokens command = Some (Ok raw)).
Proof.
  split.
  - intros e. by apply iter_get_token_error.
  - intros Hin. destruct (tokens_returns command) as [[raw|e] Hr]; [eauto|].
    exfalso. revert Hr. by apply iter_get_token_no_quote.
Qed.

(** Every token of a command line is a string that is not empty; so the loop
    over the arguments never stops at an argument that is not a string, and
    decodes as many arguments as there are tokens. *)
Theorem tokens_are_nonempty_strings (command : str) (raw : list (option str)) :
  tokens command = Some (Ok raw) ->
  Forall (fun tok => exists s, tok = Some s /\ s <> []) raw
  /\ exists argv, sanitize_arguments raw = Some argv /\ length argv = length raw.
Proof.
  intros Htok. split.
  - by apply iter_get_token_nonempty in Htok.
  - apply tokens_strings in Htok as Hs. rewrite (sanitize_arguments_strings raw Hs).
    eexists. split; [done|]. rewrite length_fmap.
    clear Htok. induction Hs as [|[a|] raw [b Hb] _ IH]; simpl; [done| |done].
    f_equal. exact IH.
Qed.

Lemma tokens_are_nonempty_strings_witness :
  Forall (fun tok => exists s, tok = Some s /\ s <> [])
    [Some (lit "SET"); Some (lit "k"); Some (lit "'a b'")]
  /\ exists argv,
       sanitize_arguments [Some (lit "SET"); Some (lit "k"); Some (lit "'a b'")] = Some argv
       /\ length argv = length [Some (lit "SET"); Some (lit "k"); Some (lit "'a b'")].
Proof.
  apply (tokens_are_nonempty_strings (lit "SET k 'a b'")). reflexivity.
Defined.

(** ** Commands made of plain words *)

Lemma wordchar_is_ordinary (c : ascii) :
  char_in c Shlex.wordchars_ascii = true ->
  char_in c Shlex.whitespace = false /\ Ascii.eqb c "#" = false
  /\ char_in c Shlex.quotes = false.
Proof.
  intros Hc.
  pose proof (forall_chars
    (fun c => implb (char_in c Shlex.wordchars_ascii)
                (negb (char_in c Shlex.whitespace) && negb (Ascii.eqb c "#")
                 && negb (char_in c Shlex.quotes)))) as H.
  specialize (H ltac:(vm_compute; reflexivity) c). cbv beta in H.
  rewrite Hc in H. cbn [implb] in H.
  apply andb_true_iff in H as [H Hq]. apply andb_true_iff in H as [Hw Hh].
  apply negb_true_iff in Hw, Hh, Hq. done.
Qed.

Section Words.
Import Shlex ShlexFacts.

Let cfg := default_config false.

(** The loop of [read_token] inside a word gathers the characters of
    [wordchars] that follow. *)
Lemma read_loop_word (word rest t : str) (pb : list str) (loc : locals) :
  Forall (fun c => char_in c wordchars_ascii = true) word ->
  read_loop cfg (word ++ rest) {| state := Some in_word; token := t; pushback := pb |} loc
  = read_loop cfg rest {| state := Some in_word; token := t ++ word; pushback := pb |} loc.
Proof.
  intros Hword. revert t. induction Hword as [|c word Hc _ IH]; intros t.
  - by rewrite app_nil_r.
  - cbn [app]. rewrite read_loop_cons.
    destruct (wordchar_is_ordinary c Hc) as (Hws & Hhash & _).
    unfold turn_char, in_wordchars. cbn [state cfg default_config posix commenters andb].
    cbn [char_in existsb]. rewrite Hhash. cbn [orb].
    change (existsb (Ascii.eqb c) whitespace) with (char_in c whitespace).
    change (existsb (Ascii.eqb c) wordchars_ascii) with (char_in c wordchars_ascii).
    rewrite Hws, Hc. cbn [orb]. unfold set_token. cbn [state token pushback].
    rewrite IH. by rewrite <- app_assoc.
Qed.

(** A word at the start of the stream, a blank after it: the word is the
    token, and the stream goes on after the blank. *)
Lemma read_token_word_blank (c : ascii) (word rest : str) :
  Forall (fun c => char_in c wordchars_ascii = true) (c :: word) ->
  read_token cfg new ((c :: word) ++ " "%char :: rest)
  = Ok (Some (c :: word), new, rest).
Proof.
  intros [Hc Hword]%Forall_cons. unfold read_token. cbn [app].
  rewrite read_loop_cons.
  destruct (wordchar_is_ordinary c Hc) as (Hws & Hhash & _).
  unfold turn_char at 1, in_wordchars. cbn [state new cfg default_config posix commenters andb].
  cbn [char_in existsb]. rewrite Hhash. cbn [orb].
  change (existsb (Ascii.eqb c) whitespace) with (char_in c whitespace).
  change (existsb (Ascii.eqb c) wordchars_ascii) with (char_in c wordchars_ascii).
  rewrite Hws, Hc. cbn [orb]. unfold set_token, set_state. cbn [state token pushback].
  rewrite read_loop_word by done. rewrite read_loop_cons. reflexivity.
Qed.

(** A word that ends the stream is the last token. *)
Lemma read_token_word_end (c : ascii) (word : str) :
  Forall (fun c => char_in c wordchars_ascii = true) (c :: word) ->
  read_token cfg new (c :: word)
  = Ok (Some (c :: word), {| state := None; token := []; pushback := [] |}, []).
Proof.
  intros [Hc Hword]%Forall_cons. unfold read_token.
  rewrite read_loop_cons.
  destruct (wordchar_is_ordinary c Hc) as (Hws & Hhash & _).
  unfold turn_char at 1, in_wordchars. cbn [state new cfg default_config posix commenters andb].
  cbn [char_in existsb]. rewrite Hhash. cbn [orb].
  change (existsb (Ascii.eqb c) whitespace) with (char_in c whitespace).
  change (existsb (Ascii.eqb c) wordchars_ascii) with (char_in c wordchars_ascii).
  rewrite Hws, Hc. cbn [orb]. unfold set_token, set_state. cbn [state token pushback].
  rewrite <- (app_nil_r word) at 1. rewrite read_loop_word by done. reflexivity.
Qed.

Lemma iter_get_token_words (words : list str) (fuel : nat) :
  Forall is_word words ->
  (2 * length (join_blank words) < fuel)%nat ->
  iter_get_token fuel cfg new (join_blank words) = Some (Ok (Some <$> words)).
Proof.
  intros Hwords. revert fuel.
  induction Hwords as [|w words [Hne Hw] Hrest IH]; intros fuel Hfuel.
  - destruct fuel; [lia|]. reflexivity.
  - destruct w as [|c w]; [done|]. destruct fuel as [|fuel]; [lia|].
    destruct words as [|w2 words].
    + cbn [join_blank iter_get_token get_token pushback new].
      rewrite read_token_word_end by done.
      destruct fuel as [|fuel]; [simpl in Hfuel; lia|]. reflexivity.
    + cbn [iter_get_token get_token pushback new].
      change (join_blank ((c :: w) :: w2 :: words))
        with ((c :: w) ++ " "%char :: join_blank (w2 :: words)).
      rewrite read_token_word_blank by done.
      rewrite IH; [done|].
      change (join_blank ((c :: w) :: w2 :: words))
        with ((c :: w) ++ " "%char :: join_blank (w2 :: words)) in Hfuel.
      rewrite length_app, !length_cons in Hfuel. lia.
Qed.

End Words.

(** A command line of words made of letters, digits and underscores, with one
    blank between two words, tokenizes to exactly these words. *)
Theorem tokens_of_words (words : list str) :
  Forall is_word words ->
  tokens (join_blank words) = Some (Ok (Some <$> words)).
Proof.
  intros Hwords. unfold tokens. apply iter_get_token_words; [done|lia].
Qed.

Lemma tokens_of_words_witness :
  tokens (join_blank [lit "HSET"; lit "user_1"; lit "age"; lit "42"])
  = Some (Ok (Some <$> [lit "HSET"; lit "user_1"; lit "age"; lit "42"])).
Proof.
  apply tokens_of_words.
  repeat constructor; try discriminate.
Defined.

(** ** What a batch sends to the store *)

Lemma sanitize_arguments_bounded (raw : list (option str)) (argv : list str) :
  sanitize_arguments raw = Some argv ->
  Forall (fun a : str => (length a <= 256)%nat) argv.
Proof.
  revert argv. induction raw as [|[a|] raw IH]; intros argv; simpl; try done.
  - intros [= <-]. constructor.
  - destruct (sanitize_arguments raw) as [r|]; [|done]. intros [= <-].
    constructor; [apply sanitize_argument_bound|by apply IH].
Qed.

Section BatchFacts.

Context {Store Session : Type}.
Variable client : Session -> list str -> Store -> result value * Store.
Variable session : Session.

(** A turn of the loop: at most one reply, at most one call of the client;
    without a call the world is as it was and the reply, if any, is an error
    with its message; with a call, the vector sent is within the limits. *)
Lemma execute_command_step (command : str) (rep : list Reply) (w : world Store) :
  exists new cs w',
    execute_command client session command rep w = (Some (Ok (rep ++ new)), w')
    /\ calls w' = calls w ++ cs
    /\ ((cs = [] /\ w' = w /\ (new = [] \/ exists m, new = [reply (VStr m) true]))
        \/ (exists argv r, cs = [argv] /\ new = [r] /\ within_limits argv
              /\ (reply_error r = true -> exists m, reply_value r = VStr m))).
Proof.
  assert (Hquiet : forall new run,
    run = (Some (Ok (rep ++ new)), w) ->
    new = [] \/ (exists m, new = [reply (VStr m) true]) ->
    exists new0 cs w',
      run = (Some (Ok (rep ++ new0)), w')
      /\ calls w' = calls w ++ cs
      /\ ((cs = [] /\ w' = w /\ (new0 = [] \/ exists m, new0 = [reply (VStr m) true]))
          \/ (exists argv r, cs = [argv] /\ new0 = [r] /\ within_limits argv
                /\ (reply_error r = true -> exists m, reply_value r = VStr m)))).
  { intros new run -> Hnew. exists new, [], w. rewrite app_nil_r. split; [done|].
    split; [done|]. by left. }
  unfold execute_command.
  destruct (tokens_returns command) as [r Hr]. rewrite Hr.
  destruct r as [raw|e].
  2: { destruct (tokens_raises _ _ Hr) as [m ->]. eapply Hquiet; [done|eauto]. }
  destruct (Z.eqb_spec (Z.of_nat (length raw)) 0) as [Hz|Hnz].
  { apply (Hquiet []); [by rewrite app_nil_r|by left]. }
  unfold max_arguments.
  destruct (Z.gtb_spec (Z.of_nat (length raw)) 25) as [Hmany|Hfew].
  { eapply Hquiet; [done|]. right. unfold deny. eauto. }
  destruct (sanitize_arguments raw) as [argv|] eqn:Hargs.
  2: { eapply Hquiet; [done|]. right. unfold deny. eauto. }
  apply sanitize_arguments_length in Hargs as Hlen.
  apply sanitize_arguments_bounded in Hargs as Hbound.
  destruct argv as [|a0 rest]; [simpl in Hlen; lia|].
  destruct (sanitize_exceptions_cut a0 rest) as (argv' & verdict & -> & Hcase).
  destruct verdict as [error|].
  { eapply Hquiet; [done|]. right. unfold deny. eauto. }
  assert (Hlimits : within_limits argv').
  { destruct Hcase as [->|(_ & _ & a1 & a2 & a3 & n & -> & ->)].
    - split; [lia|done].
    - split; [simpl in *; lia|].
      apply Forall_cons in Hbound as [H0 Hbound]. apply Forall_cons in Hbound as [H1 Hbound].
      apply Forall_cons in Hbound as [H2 Hbound]. apply Forall_cons in Hbound as [H3 _].
      apply Forall_cons; split; [done|]. apply Forall_cons; split; [done|].
      apply Forall_cons; split; [done|]. apply Forall_cons; split; [|constructor].
      rewrite length_take. lia. }
  unfold dispatch.
  destruct (client session argv' (store w)) as [[resp|e] s'].
  - eexists [_], [argv'], _. split; [done|]. split; [done|]. right.
    eexists _, _. split; [done|]. split; [done|]. split; [exact Hlimits|]. done.
  - eexists [_], [argv'], _. split; [done|]. split; [done|]. right.
    eexists _, _. split; [done|]. split; [done|]. split; [exact Hlimits|].
    simpl. eauto.
Qed.

(** The same for the loop of a batch. *)
Lemma execute_loop_step (commands : list str) (rep : list Reply) (w : world Store) :
  exists new cs w',
    execute_loop client session commands rep w = (Some (Ok (rep ++ new)), w')
    /\ calls w' = calls w ++ cs
    /\ Forall within_limits cs
    /\ (length (successes new) <= length cs <= length new)%nat
    /\ (length new <= length commands)%nat
    /\ Forall (fun r => reply_error r = true -> exists m, reply_value r = VStr m) new
    /\ (cs = [] -> w' = w).
Proof.
  revert rep w. induction commands as [|command commands IH]; intros rep w.
  { exists [], [], w. rewrite !app_nil_r. simpl. repeat split; try done; lia. }
  cbn [execute_loop].
  destruct (execute_command_step command rep w) as (new1 & cs1 & w1 & -> & Hcalls1 & Hcase).
  destruct (IH (rep ++ new1) w1)
    as (new2 & cs2 & w2 & -> & Hcalls2 & Hlim2 & Hcount2 & Hlen2 & Herr2 & Hquiet2).
  exists (new1 ++ new2), (cs1 ++ cs2), w2.
  rewrite <- !app_assoc. split; [done|].
  split; [by rewrite Hcalls2, Hcalls1, <- app_assoc|].
  unfold successes in *. rewrite List.filter_app, !length_app. simpl length.
  destruct Hcase as [(-> & -> & Hnew)|(argv & r & -> & -> & Hlim & Herr)].
  - split; [done|].
    destruct Hnew as [->|[m ->]]; simpl; repeat split; try done; try lia.
    constructor; [eauto|done].
  - split; [by constructor|].
    simpl. split; [destruct (reply_error r); simpl; lia|].
    split; [lia|]. split; [by constructor|]. done.
Qed.

End BatchFacts.

(** Every argument vector that a batch sends to the store client has between
    1 and 25 arguments, each of at most 256 characters, whatever the command
    lines of the batch are. *)
Theorem dispatched_within_limits {Store Session : Type}
    (client : Session -> list str -> Store -> result value * Store)
    (session : Session) (commands : list str) (w : world Store) :
  exists rep w' sent,
    execute_commands client session commands w = (Some (Ok rep), w')
    /\ calls w' = calls w ++ sent
    /\ Forall within_limits sent.
Proof.
  destruct (execute_loop_step client session commands [] w)
    as (new & cs & w' & Hrun & Hcalls & Hlim & _).
  exists new, w', cs. split; [|done]. exact Hrun.
Qed.

(** A batch calls the store client at most once for each reply, and replies
    at most once for each command; every reply without error comes from a
    call; every reply with an error carries a string; and a batch that calls
    the client for no command leaves the world as it was. *)
Theorem replies_account_for_calls {Store Session : Type}
    (client : Session -> list str -> Store -> result value * Store)
    (session : Session) (commands : list str) (w : world Store) :
  exists rep w' sent,
    execute_commands client session commands w = (Some (Ok rep), w')
    /\ calls w' = calls w ++ sent
    /\ (length (successes rep) <= length sent <= length rep)%nat
    /\ (length rep <= length commands)%nat
    /\ Forall (fun r => reply_error r = true -> exists m, reply_value r = VStr m) rep
    /\ (sent = [] -> w' = w).
Proof.
  destruct (execute_loop_step client session commands [] w)
    as (new & cs & w' & Hrun & Hcalls & _ & Hcount & Hlen & Herr & Hquiet).
  exists new, w', cs. split; [exact Hrun|]. done.
Qed.

(** Running a batch made of two batches is running the first and then the
    second on the world the first left: the replies are those of the first
    followed by those of the second. *)
Theorem batch_composition {Store Session : Type}
    (client : Session -> list str -> Store -> result value * Store)
    (session : Session) (first second : list str) (w : world Store) :
  exists rep1 w1 rep2 w2,
    execute_commands client session first w = (Some (Ok rep1), w1)
    /\ execute_commands client session second w1 = (Some (Ok rep2), w2)
    /\ execute_commands client session (first ++ second) w
       = (Some (Ok (rep1 ++ rep2)), w2).
Proof.
  unfold execute_commands.
  destruct (execute_loop_frame client session first [] w) as (rep1 & w1 & Hfirst & _).
  destruct (execute_loop_frame client session second rep1 w1)
    as (rep2 & w2 & Hsecond & Hsecond0).
  exists rep1, w1, rep2, w2. split; [exact Hfirst|]. split; [exact Hsecond0|].
  by rewrite (execute_loop_app client session first second [] rep1 w w1 Hfirst).
Qed.

Lemma word_is_unquoted (w : str) :
  is_word w -> startswith w dquote || startswith w squote = false.
Proof.
  intros [Hne Hw]. destruct w as [|c w]; [done|].
  apply Forall_cons in Hw as [Hc _].
  destruct (wordchar_is_ordinary c Hc) as (_ & _ & Hq).
  unfold Shlex.quotes in Hq. cbn [char_in existsb] in Hq.
  apply orb_false_iff in Hq as [Hs Hq]. apply orb_false_iff in Hq as [Hd _].
  cbn [startswith]. by rewrite Hs, Hd.
Qed.

Lemma sanitize_arguments_words (words : list str) :
  Forall is_word words ->
  Forall (fun a : str => (length a <= 256)%nat) words ->
  sanitize_arguments (Some <$> words) = Some words.
Proof.
  induction 1 as [|w words Hw _ IH]; intros Hlen; [done|].
  apply Forall_cons in Hlen as [Hshort Hlen].
  rewrite fmap_cons. cbn [sanitize_arguments]. rewrite (IH Hlen).
  assert (Hsame : unescape_argument w = w).
  { apply unescape_argument_unquoted. left. by apply word_is_unquoted. }
  rewrite sanitize_argument_short; rewrite Hsame; done.
Qed.

(** A command line of at most 25 plain words of at most 256 characters each,
    separated by single blanks, whose name is not one the policy engine looks
    at, reaches the store client word for word; the reply is the escaped
    response (the response itself for an [INFO] command), or the message of
    the exception the client raised. *)
Theorem plain_command_dispatched {Store Session : Type}
    (client : Session -> list str -> Store -> result value * Store)
    (session : Session) (name : str) (args : list str)
    (rep : list Reply) (w : world Store) :
  Forall is_word (name :: args) ->
  (length (name :: args) <= 25)%nat ->
  Forall (fun a : str => (length a <= 256)%nat) (name :: args) ->
  ~ In (lower name) [lit "quit"; lit "hello"; lit "reset"; lit "auth";
                     lit "setbit"; lit "setrange"] ->
  execute_command client session (join_blank (name :: args)) rep w
  = match dispatch client session (name :: args) w with
    | (Ok resp, w') =>
        (Some (Ok (rep ++ [reply (if is_info (name :: args) then resp
                                  else escape_strings resp) false])), w')
    | (Raise e, w') => (Some (Ok (rep ++ [reply (VStr (exn_str e)) true])), w')
    end.
Proof.
  intros Hwords Hcount Hlen Hname.
  assert (Htok : tokens (join_blank (name :: args)) = Some (Ok (Some <$> name :: args))).
  { unfold tokens. apply iter_get_token_words; [done|lia]. }
  unfold execute_command. rewrite Htok, length_fmap.
  destruct (Z.eqb_spec (Z.of_nat (length (name :: args))) 0) as [Hz|_];
    [simpl in Hz; lia|].
  unfold max_arguments.
  destruct (Z.gtb_spec (Z.of_nat (length (name :: args))) 25) as [?|_]; [lia|].
  rewrite (sanitize_arguments_words _ Hwords Hlen).
  assert (Hpolicy : sanitize_exceptions (name :: args) = Ok (name :: args, None)).
  { unfold sanitize_exceptions. cbn [getitem lookup list_lookup bind].
    destruct (str_eqb (lower name) (lit "setbit")) eqn:Hbit.
    { apply str_eqb_eq in Hbit. destruct Hname. rewrite Hbit. simpl. tauto. }
    destruct (str_eqb (lower name) (lit "setrange")) eqn:Hrange.
    { apply str_eqb_eq in Hrange. destruct Hname. rewrite Hrange. simpl. tauto. }
    cbn [andb].
    destruct (existsb _ _) eqn:Hban; [|done].
    apply existsb_str_eqb in Hban. destruct Hname. simpl in *. tauto. }
  rewrite Hpolicy. reflexivity.
Qed.

Lemma plain_command_dispatched_witness :
  execute_command (TestClient.constant (VStr (lit "a\b"))) tt
    (join_blank [lit "GET"; lit "user_1"]) [] TestClient.fresh
  = match dispatch (TestClient.constant (VStr (lit "a\b"))) tt
            [lit "GET"; lit "user_1"] TestClient.fresh with
    | (Ok resp, w') =>
        (Some (Ok ([] ++ [reply (if is_info [lit "GET"; lit "user_1"] then resp
                                 else escape_strings resp) false])), w')
    | (Raise e, w') => (Some (Ok ([] ++ [reply (VStr (exn_str e)) true])), w')
    end.
Proof.
  apply (plain_command_dispatched (TestClient.constant (VStr (lit "a\b"))) tt
           (lit "GET") [lit "user_1"] [] TestClient.fresh).
  - repeat constructor; discriminate.
  - simpl. lia.
  - repeat (apply Forall_cons; split; [simpl; lia|]). constructor.
  - simpl. intros [H|[H|[H|[H|[H|[H|[]]]]]]]; discriminate H.
Defined.

(** ** Quoted tokens *)

Section QuotedRuns.
Import Shlex ShlexFacts.

Variable cfg : config.
Hypothesis not_posix : posix cfg = false.

Lemma in_wordchars_unquoted (c : ascii) :
  in_wordchars cfg c = true -> char_in c quotes = false.
Proof using not_posix.
  unfold in_wordchars. rewrite not_posix. cbn [andb]. rewrite orb_false_r.
  intros Hc. by destruct (wordchar_is_ordinary c Hc) as (_ & _ & ?).
Qed.

Lemma unquoted_start_app (t : str) (c : ascii) :
  t <> [] -> unquoted_start t -> unquoted_start (t ++ [c]).
Proof. by destruct t. Qed.

(** One turn of the loop keeps [lexing], or leaves the loop in [lexed]. *)
Lemma turn_char_lexing (c : ascii) (lx : lexer) (loc : locals) :
  lexing lx ->
  match (turn_char cfg c lx loc).2 with
  | Continue lx' _ => lexing lx'
  | Break lx' _ => lexed lx'
  | Raising _ => True
  end.
Proof using not_posix.
  destruct lx as [st tok pb]. unfold lexing, lexed, turn_char, emit.
  rewrite not_posix. cbn [state token pushback andb].
  intros [Hpb Hst]. destruct st as [[| |q|e]|]; [| | |done|].
  - subst tok.
    destruct (char_in c whitespace); [cbn; auto|].
    destruct (char_in c (commenters cfg)); [cbn; auto|].
    destruct (in_wordchars cfg c) eqn:Hw.
    { apply in_wordchars_unquoted in Hw. cbn. auto. }
    destruct (char_in c quotes) eqn:Hq.
    { cbn. split; [done|]. split; [done|]. exists []. split; [done|]. by intros []. }
    destruct (whitespace_split cfg); cbn; auto.
  - destruct Hst as [Hne Hstart]. destruct tok as [|t0 tok]; [done|].
    destruct (char_in c whitespace); [cbn; auto|].
    destruct (char_in c (commenters cfg)); [cbn; auto|].
    destruct (in_wordchars cfg c || char_in c quotes || whitespace_split cfg) eqn:Hmore.
    { cbn. auto. }
    apply orb_false_iff in Hmore as [Hmore _]. apply orb_false_iff in Hmore as [_ Hq].
    cbn. split; [by constructor|]. auto.
  - destruct Hst as [Hq (body & -> & Hbody)].
    destruct (Ascii.eqb_spec c q) as [->|Hc].
    + cbn. split; [done|]. split; [|auto]. right. exists q, body. done.
    + cbn. split; [done|]. split; [done|]. exists (body ++ [c]). split; [done|].
      rewrite in_app_iff. intros [?|[?|[]]]; [done|]. by subst.
  - subst tok. cbn. auto.
Qed.

(** So does the whole loop. *)
Lemma read_loop_lexing (input : str) (lx : lexer) (loc : locals) :
  lexing lx ->
  match read_loop cfg input lx loc with
  | Ok (lx', _, _) => lexed lx'
  | Raise _ => True
  end.
Proof using not_posix.
  remember (length input) as n eqn:Hn.
  revert input lx loc Hn. induction (lt_wf n) as [n _ IH].
  intros [|c input] lx loc -> Hlx.
  - destruct lx as [st tok pb]. destruct Hlx as [Hpb Hst].
    unfold read_loop, read_loop_eof, turn_eof, lexed. cbn [state token pushback] in *.
    destruct st as [[| |q|e]|]; try done; subst; cbn; auto.
    destruct Hst. auto.
  - rewrite read_loop_cons.
    pose proof (readline_length input) as Hrl.
    pose proof (turn_char_lexing c lx loc Hlx) as Hturn.
    destruct (turn_char cfg c lx loc) as [[|] [lx1 loc1|lx1 loc1|x]];
      simpl in Hturn; try done.
    + apply (IH (length (readline input))); [simpl; lia|done|done].
    + apply (IH (length input)); [simpl; lia|done|done].
Qed.

(** Every token gathered begins with a character that is no quote, or is a
    quoted run with its two quotes. *)
Lemma iter_get_token_runs (fuel : nat) (lx : lexer) (input : str)
    (toks : list (option str)) :
  lexing lx -> (state lx = None \/ state lx = Some in_space) ->
  iter_get_token fuel cfg lx input = Some (Ok toks) ->
  Forall (fun tok => forall s, tok = Some s -> unquoted_start s \/ closed_run s) toks.
Proof using not_posix.
  revert lx input toks. induction fuel as [|fuel IH]; intros lx input toks Hlx Hidle; [done|].
  simpl. unfold get_token.
  destruct (pushback lx) as [|tok pb] eqn:Hpb.
  - unfold read_token.
    pose proof (read_loop_lexing input lx
                  {| quoted := false; escapedstate := in_space |} Hlx) as Hloop.
    destruct (read_loop cfg input lx _) as [[[lx' loc'] rest]|x]; simpl; [|done].
    rewrite not_posix. simpl. destruct Hloop as (Hpb' & Htok' & Hidle').
    destruct (token lx') as [|t ts] eqn:Htoken; [by intros [= <-]|].
    destruct (iter_get_token fuel _ _ _) as [[toks'|]|] eqn:Hi; try done.
    intros [= <-]. constructor; [by intros s [= <-]|].
    eapply IH; [| |done].
    + destruct lx' as [st' tok' pb']. split; [done|]. cbn in *.
      by destruct Hidle' as [->| ->].
    + by destruct lx'.
  - destruct Hlx as [Hgood Hst]. rewrite Hpb in Hgood.
    apply Forall_cons in Hgood as [Htok Hgood].
    destruct tok; [by intros [= <-]|].
    destruct (iter_get_token fuel _ _ _) as [[toks'|]|] eqn:Hi; try done.
    intros [= <-]. constructor; [intros s [= <-]; by left|].
    eapply IH; [| |done]; [split; done|done].
Qed.

End QuotedRuns.

Lemma replace2_cons (o1 o2 new c d : ascii) (s : str) :
  replace2 o1 o2 new (c :: d :: s)
  = if Ascii.eqb c o1 && Ascii.eqb d o2 then new :: replace2 o1 o2 new s
    else c :: replace2 o1 o2 new (d :: s).
Proof. reflexivity. Qed.

Lemma replace2_absent (o1 o2 new : ascii) (s : str) :
  ~ In o2 s -> replace2 o1 o2 new s = s.
Proof.
  remember (length s) as n eqn:Hn.
  revert s Hn. induction (lt_wf n) as [n _ IH]. intros [|c [|d s]] -> Hnot; [done..|].
  rewrite replace2_cons.
  destruct (Ascii.eqb_spec d o2) as [->|Hd].
  { destruct Hnot. simpl. tauto. }
  rewrite andb_false_r. f_equal.
  apply (IH (length (d :: s))); [simpl; lia|done|].
  intros Hin. apply Hnot. by right.
Qed.

(** A token of the lexer that begins with a quote character is a closed run:
    it ends with the same quote and holds no other occurrence of it.  So the
    decoder always takes a matching pair of quotes off, and a single-quoted
    token decodes to what stands between its quotes. *)
Theorem quoted_tokens_are_closed (command : str) (raw : list (option str)) :
  tokens command = Some (Ok raw) ->
  Forall (fun tok => forall s q,
            tok = Some s -> q = dquote \/ q = squote -> startswith s q = true ->
            exists body,
              s = q :: body ++ [q] /\ ~ In q body
              /\ (q = squote -> unescape_argument s = body))
         raw.
Proof.
  intros Htok.
  assert (Hruns : Forall (fun tok => forall s, tok = Some s ->
                            unquoted_start s \/ closed_run s) raw).
  { revert Htok. apply (iter_get_token_runs (Shlex.default_config false) eq_refl).
    - split; [constructor|done].
    - by right. }
  eapply Forall_impl; [exact Hruns|]. cbv beta.
  intros tok Hrun s q -> Hq Hstart. destruct s as [|c s]; [done|].
  cbn [startswith] in Hstart. apply Ascii.eqb_eq in Hstart. subst c.
  destruct (Hrun _ eq_refl) as [Hplain|(q' & body & _ & [= <- ->] & Hbody)].
  - exfalso. unfold unquoted_start, Shlex.quotes in Hplain. cbn in Hplain.
    destruct Hq as [->| ->]; by rewrite Ascii.eqb_refl, ?orb_true_r in Hplain.
  - exists body. split; [done|]. split; [done|]. intros ->.
    rewrite unescape_argument_squote. by apply replace2_absent.
Qed.

Lemma quoted_tokens_are_closed_witness :
  Forall (fun tok => forall s q,
            tok = Some s -> q = dquote \/ q = squote -> startswith s q = true ->
            exists body,
              s = q :: body ++ [q] /\ ~ In q body
              /\ (q = squote -> unescape_argument s = body))
         [Some (lit "SET"); Some (lit "k"); Some (lit "'a \n b'")].
Proof.
  apply (quoted_tokens_are_closed (lit "SET k 'a \n b'")). reflexivity.
Defined.
